(** * redis-queue: a deque over a Redis list, and its exclusive variant

    A shallow embedding of [redis-queue.py].  The two classes of the file,
    [RedisQueue] and [ExclusiveQueue], hold no state of their own: every
    method is one call, or a short fixed run of calls, on the connection
    [self.redis_conn] for the list stored under [self.key].  The embedding
    therefore threads the server's key space through a state-and-exception
    monad and writes each method as the same run of connection calls. *)

From Stdlib Require Import ZArith.
From stdpp Require Import gmap strings list fin_maps.

Local Open Scope Z_scope.

(** ** Python values that cross the interface *)

(** What a pop hands back: [None], a bare element (non-blocking pops), or the
    [key, element] pair of the blocking pops.  Elements themselves are opaque
    values of a type [V] compared by equality. *)
Inductive pyval (V : Type) : Type :=
  | PyNone
  | PyItem (v : V)
  | PyPair (k : string) (v : V).
Arguments PyNone {V}.
Arguments PyItem {V} v.
Arguments PyPair {V} k v.

#[global] Instance pyval_eq_dec {V} `{EqDecision V} : EqDecision (pyval V).
Proof. solve_decision. Defined.

(** What the server answers to a refused command. *)
Inductive response_error : Type :=
  | NoSuchKey
  | IndexOutOfRange.

(** The exceptions the methods raise or let through. *)
Inductive exn : Type :=
  | ResponseError (e : response_error)
  | ValueError
  | IndexError (e : exn)
  | TypeError.

Inductive result (A : Type) : Type :=
  | Ok (a : A)
  | Raise (e : exn).
Arguments Ok {A} a.
Arguments Raise {A} e.

(** ** The monad of calls on one connection *)

(** A computation reads and writes the key space and either returns or
    raises; a raise keeps the writes made before it. *)
Definition M (S A : Type) : Type := S → result A * S.

Definition ret {S A} (a : A) : M S A := λ σ, (Ok a, σ).

Definition bind {S A B} (m : M S A) (k : A → M S B) : M S B :=
  λ σ, match m σ with
       | (Ok a, σ') => k a σ'
       | (Raise e, σ') => (Raise e, σ')
       end.

Definition raise {S A} (e : exn) : M S A := λ σ, (Raise e, σ).

(** [try: m except handles: h]: the handler runs on the exceptions [handles]
    accepts, the others pass through. *)
Definition try_except {S A} (m : M S A) (handles : exn → bool)
    (h : exn → M S A) : M S A :=
  λ σ, match m σ with
       | (Ok a, σ') => (Ok a, σ')
       | (Raise e, σ') => if handles e then h e σ' else (Raise e, σ')
       end.

Declare Scope py_scope.
Delimit Scope py_scope with py.
Notation "x <- m ;; k" := (bind m (λ x, k))
  (at level 20, m at level 99, k at level 200, only parsing) : py_scope.
Notation "m ;; k" := (bind m (λ _, k))
  (at level 100, k at level 200, only parsing, right associativity) : py_scope.
Local Open Scope py_scope.

(** [for item in iterable: body(item)]. *)
Fixpoint for_each {S A} (iterable : list A) (body : A → M S unit) : M S unit :=
  match iterable with
  | [] => ret ()
  | item :: rest => body item ;; for_each rest body
  end.

Definition is_ValueError (e : exn) : bool :=
  match e with ValueError => true | _ => false end.

Definition is_ResponseError (e : exn) : bool :=
  match e with ResponseError _ => true | _ => false end.

(** The state after a computation, and what it returned. *)
Definition exec {S A} (m : M S A) (σ : S) : S := snd (m σ).
Definition eval {S A} (m : M S A) (σ : S) : result A := fst (m σ).

(** ** The connection: list commands of the server *)

(** Whether the server drops a key as soon as its list runs empty.  Servers
    differ on this and the queue code never relies on either behaviour, so
    the choice is a parameter of the model. *)
Class Server := drops_empty_lists : bool.

Module redis_conn.
Section commands.
Context {V : Type} `{EqDecision V} {srv : Server}.

(** The key space: the lists of the server, by key.  A key may be absent,
    which is not the same as holding the empty list. *)
Local Abbreviation store := (gmap string (list V)).

(** The elements under [k], head first; none when the key is absent. *)
Definition contents (σ : store) (k : string) : list V :=
  default [] (σ !! k).

Definition put (k : string) (l : list V) (σ : store) : store :=
  match l with
  | [] => if drops_empty_lists then base.delete k σ else <[k := l]> σ
  | _ => <[k := l]> σ
  end.

(** Store convention for an index into a list of [n] elements: from the
    head when non-negative, from the tail when negative. *)
Definition resolve_index (n : nat) (i : Z) : option nat :=
  if 0 <=? i then
    if i <? Z.of_nat n then Some (Z.to_nat i) else None
  else
    if - Z.of_nat n <=? i then Some (Z.to_nat (Z.of_nat n + i)) else None.

(** Modelled from the spec: push-tail (single value). *)
Definition rpush (k : string) (x : V) : M store unit :=
  λ σ, (Ok (), put k (contents σ k ++ [x]) σ).

(** Modelled from the spec: push-head (single value). *)
Definition lpush (k : string) (x : V) : M store unit :=
  λ σ, (Ok (), put k (x :: contents σ k) σ).

(** Modelled from the spec: pop-tail, non-blocking, value-or-empty. *)
Definition rpop (k : string) : M store (pyval V) :=
  λ σ, match last (contents σ k) with
       | None => (Ok PyNone, σ)
       | Some x => (Ok (PyItem x), put k (removelast (contents σ k)) σ)
       end.

(** Modelled from the spec: pop-head, non-blocking, value-or-empty. *)
Definition lpop (k : string) : M store (pyval V) :=
  λ σ, match contents σ k with
       | [] => (Ok PyNone, σ)
       | x :: rest => (Ok (PyItem x), put k rest σ)
       end.

(** Modelled from the spec: blocking pop-tail.  With no other writer an
    empty list stays empty until the deadline, and the answer is then the
    empty one; otherwise the answer names the key that produced the
    value. *)
Definition brpop (k : string) (timeout : nat) : M store (pyval V) :=
  λ σ, match last (contents σ k) with
       | None => (Ok PyNone, σ)
       | Some x => (Ok (PyPair k x), put k (removelast (contents σ k)) σ)
       end.

(** Modelled from the spec: blocking pop-head. *)
Definition blpop (k : string) (timeout : nat) : M store (pyval V) :=
  λ σ, match contents σ k with
       | [] => (Ok PyNone, σ)
       | x :: rest => (Ok (PyPair k x), put k rest σ)
       end.

(** Modelled from the spec: length. *)
Definition llen (k : string) : M store nat :=
  λ σ, (Ok (length (contents σ k)), σ).

(** Modelled from the spec: indexed get, the empty answer when out of
    range. *)
Definition lindex (k : string) (i : Z) : M store (pyval V) :=
  λ σ, match resolve_index (length (contents σ k)) i with
       | None => (Ok PyNone, σ)
       | Some j =>
           match contents σ k !! j with
           | Some v => (Ok (PyItem v), σ)
           | None => (Ok PyNone, σ)
           end
       end.

(** Modelled from the spec: indexed set, refused with a range error on an
    out-of-bounds index (and on a key that holds no list). *)
Definition lset (k : string) (i : Z) (v : V) : M store unit :=
  λ σ, match σ !! k with
       | None => (Raise (ResponseError NoSuchKey), σ)
       | Some l =>
           match resolve_index (length l) i with
           | None => (Raise (ResponseError IndexOutOfRange), σ)
           | Some j => (Ok (), put k (<[j := v]> l) σ)
           end
       end.

(** Modelled from the spec: range read, both ends inclusive and counted by
    the index convention above; the answer is [None] when the sequence does
    not exist. *)
Definition lrange (k : string) (start stop : Z) : M store (option (list V)) :=
  λ σ, match σ !! k with
       | None => (Ok None, σ)
       | Some l =>
           let n := Z.of_nat (length l) in
           let s := if start <? 0 then Z.max 0 (n + start) else start in
           let e := if stop <? 0 then n + stop else Z.min stop (n - 1) in
           (Ok (Some (if e <? s then []
                      else take (Z.to_nat (e - s + 1)) (drop (Z.to_nat s) l))),
            σ)
       end.

(** Modelled from the spec: delete-all-matching-value, returns the count
    removed.  The argument is whatever Python value the caller passes; an
    element matches when the argument is that element. *)
Definition lrem (k : string) (value : pyval V) : M store nat :=
  λ σ, let l := contents σ k in
       let kept := filter (λ e, PyItem e ≠ value) l in
       let num_removed := (length l - length kept)%nat in
       (Ok num_removed,
        match num_removed with
        | O => σ
        | _ => put k kept σ
        end).

(** Modelled from the spec: atomic move of the tail of [src] to the head of
    [dst]; nothing happens on an empty [src]. *)
Definition poppush (src dst : string) : M store (pyval V) :=
  λ σ, match last (contents σ src) with
       | None => (Ok PyNone, σ)
       | Some x =>
           let σ1 := put src (removelast (contents σ src)) σ in
           (Ok (PyItem x), put dst (x :: contents σ1 dst) σ1)
       end.

(** Modelled from the spec: delete key. *)
Definition delete (k : string) : M store unit :=
  λ σ, (Ok (), base.delete k σ).

End commands.
End redis_conn.

Arguments redis_conn.contents : simpl never.
Arguments redis_conn.put : simpl never.

(** ** The two classes *)

Inductive klass : Type :=
  | RedisQueue
  | ExclusiveQueue.

(** An instance: its class and [self.key].  The other field of the source,
    [self.redis_conn], is the connection whose key space the monad threads;
    two instances with one key address one list. *)
Record queue : Type := Queue { cls : klass; key : string }.

(** [item in members] on the list a range read returned: an element is found
    by equality, and [None] or a [key, element] pair is no element. *)
Definition in_list {V} `{EqDecision V} (item : pyval V) (members : list V) : bool :=
  match item with
  | PyItem v => bool_decide (v ∈ members)
  | _ => false
  end.

(** Truth value of what [__contains__] returned, as the [in] operator takes
    it: [None] counts as false. *)
Definition truth (r : option bool) : bool :=
  match r with
  | Some b => b
  | None => false
  end.

Module RedisQueue.
Section methods.
Context {V : Type} `{EqDecision V} {srv : Server}.
Local Abbreviation store := (gmap string (list V)).

Definition append (self : queue) (x : V) : M store unit :=
  redis_conn.rpush (key self) x.

Definition appendleft (self : queue) (x : V) : M store unit :=
  redis_conn.lpush (key self) x.

Definition clear (self : queue) : M store unit :=
  redis_conn.delete (key self).

Definition pop (self : queue) (timeout : option nat) : M store (pyval V) :=
  item <- match timeout with
          | Some t => redis_conn.brpop (key self) t
          | None => redis_conn.rpop (key self)
          end ;;
  ret item.

Definition popleft (self : queue) (timeout : option nat) : M store (pyval V) :=
  item <- match timeout with
          | Some t => redis_conn.blpop (key self) t
          | None => redis_conn.lpop (key self)
          end ;;
  ret item.

Definition remove (self : queue) (value : pyval V) : M store unit :=
  num_removed <- redis_conn.lrem (key self) value ;;
  if (num_removed =? 0)%nat then raise ValueError else ret ().

Definition rotate (self : queue) : M store unit :=
  redis_conn.poppush (key self) (key self) ;;
  ret ().

Definition __contains__ (self : queue) (item : pyval V) : M store (option bool) :=
  members <- redis_conn.lrange (key self) 0 (-1) ;;
  ret (match members with
       | None => None
       | Some members => Some (in_list item members)
       end).

Definition __len__ (self : queue) : M store nat :=
  redis_conn.llen (key self).

Definition __getitem__ (self : queue) (i : Z) : M store (pyval V) :=
  item <- redis_conn.lindex (key self) i ;;
  ret item.

Definition __setitem__ (self : queue) (i : Z) (value : V) : M store unit :=
  try_except (redis_conn.lset (key self) i value)
    is_ResponseError (λ e, raise (IndexError e)).

(** The iterator is the one Python builds over the list the range read
    returned, so it is modelled by that list; [iter(None)] is a
    [TypeError]. *)
Definition __iter__ (self : queue) : M store (list V) :=
  members <- redis_conn.lrange (key self) 0 (-1) ;;
  match members with
  | None => raise TypeError
  | Some members => ret members
  end.

End methods.
End RedisQueue.

Section operators.
Context {V : Type} `{EqDecision V} {srv : Server}.

(** [item in self], as [ExclusiveQueue] writes its membership checks: the
    operator calls [self.__contains__(item)] and takes the truth value of
    what it returns. *)
Definition contains_op (self : queue) (item : pyval V)
    : M (gmap string (list V)) bool :=
  r <- RedisQueue.__contains__ self item ;;
  ret (truth r).

End operators.

Module ExclusiveQueue.
Section methods.
Context {V : Type} `{EqDecision V} {srv : Server}.
Local Abbreviation store := (gmap string (list V)).

Definition append (self : queue) (x : V) : M store unit :=
  present <- contains_op self (PyItem x) ;;
  if negb present then redis_conn.rpush (key self) x else ret ().

Definition appendleft (self : queue) (x : V) : M store unit :=
  present <- contains_op self (PyItem x) ;;
  if negb present then redis_conn.lpush (key self) x else ret ().

Definition pop (self : queue) (timeout : option nat) : M store (pyval V) :=
  item <- RedisQueue.pop self timeout ;;
  try_except (RedisQueue.remove self item) is_ValueError (λ _, ret ()) ;;
  ret item.

Definition popleft (self : queue) (timeout : option nat) : M store (pyval V) :=
  item <- RedisQueue.popleft self timeout ;;
  try_except (RedisQueue.remove self item) is_ValueError (λ _, ret ()) ;;
  ret item.

End methods.
End ExclusiveQueue.

(** ** Method resolution, and the methods that call through [self] *)

Section dispatch.
Context {V : Type} `{EqDecision V} {srv : Server}.
Local Abbreviation store := (gmap string (list V)).

(** [self.append(x)]: the method of the instance's class. *)
Definition append (self : queue) (x : V) : M store unit :=
  match cls self with
  | RedisQueue => RedisQueue.append self x
  | ExclusiveQueue => ExclusiveQueue.append self x
  end.

Definition appendleft (self : queue) (x : V) : M store unit :=
  match cls self with
  | RedisQueue => RedisQueue.appendleft self x
  | ExclusiveQueue => ExclusiveQueue.appendleft self x
  end.

Definition pop (self : queue) (timeout : option nat) : M store (pyval V) :=
  match cls self with
  | RedisQueue => RedisQueue.pop self timeout
  | ExclusiveQueue => ExclusiveQueue.pop self timeout
  end.

Definition popleft (self : queue) (timeout : option nat) : M store (pyval V) :=
  match cls self with
  | RedisQueue => RedisQueue.popleft self timeout
  | ExclusiveQueue => ExclusiveQueue.popleft self timeout
  end.

(** [RedisQueue.extend], inherited as it is by [ExclusiveQueue]: the loop
    calls [self.append], whichever class [self] has. *)
Definition extend (self : queue) (iterable : list V) : M store unit :=
  for_each iterable (λ item, append self item).

(** [RedisQueue.extendleft], likewise through [self.appendleft]. *)
Definition extendleft (self : queue) (iterable : list V) : M store unit :=
  for_each iterable (λ item, appendleft self item).

End dispatch.

(** ** Vocabulary of the statements *)

(** How often a Python value occurs among the elements. *)
Definition occurrences {V} `{EqDecision V} (value : pyval V) (l : list V) : nat :=
  length (filter (λ e, PyItem e = value) l).

(** A push at the tail, or at the head, that is skipped when the value is
    already an element. *)
Definition push_tail_once {V} `{EqDecision V} (l : list V) (x : V) : list V :=
  if bool_decide (x ∈ l) then l else l ++ [x].

Definition push_head_once {V} `{EqDecision V} (l : list V) (x : V) : list V :=
  if bool_decide (x ∈ l) then l else x :: l.

(** One call of a caller that only pushes. *)
Inductive push_call (V : Type) : Type :=
  | Append (x : V)
  | AppendLeft (x : V).
Arguments Append {V} x.
Arguments AppendLeft {V} x.

Definition push_once {V} `{EqDecision V} (l : list V) (c : push_call V) : list V :=
  match c with
  | Append x => push_tail_once l x
  | AppendLeft x => push_head_once l x
  end.

Section callers.
Context {V : Type} `{EqDecision V} {srv : Server}.

(** The call as an [ExclusiveQueue] performs it. *)
Definition call (self : queue) (c : push_call V) : M (gmap string (list V)) unit :=
  match c with
  | Append x => ExclusiveQueue.append self x
  | AppendLeft x => ExclusiveQueue.appendleft self x
  end.

End callers.

(** Any one call on a queue, with its arguments. *)
Inductive method (V : Type) : Type :=
  | m_append (x : V)
  | m_appendleft (x : V)
  | m_clear
  | m_extend (iterable : list V)
  | m_extendleft (iterable : list V)
  | m_pop (timeout : option nat)
  | m_popleft (timeout : option nat)
  | m_remove (value : pyval V)
  | m_rotate
  | m_contains (item : pyval V)
  | m_len
  | m_getitem (i : Z)
  | m_setitem (i : Z) (value : V)
  | m_iter.
Arguments m_append {V} x.
Arguments m_appendleft {V} x.
Arguments m_clear {V}.
Arguments m_extend {V} iterable.
Arguments m_extendleft {V} iterable.
Arguments m_pop {V} timeout.
Arguments m_popleft {V} timeout.
Arguments m_remove {V} value.
Arguments m_rotate {V}.
Arguments m_contains {V} item.
Arguments m_len {V}.
Arguments m_getitem {V} i.
Arguments m_setitem {V} i value.
Arguments m_iter {V}.

(** The calls that only read. *)
Definition reads_only {V} (m : method V) : bool :=
  match m with
  | m_contains _ | m_len | m_getitem _ | m_iter => true
  | _ => false
  end.

Definition is_setitem {V} (m : method V) : bool :=
  match m with
  | m_setitem _ _ => true
  | _ => false
  end.

(** What a pop hands back for the element [x] it took: the element itself
    without a timeout, the pair of the key and the element with one. *)
Definition popped {V} (timeout : option nat) (k : string) (x : V) : pyval V :=
  match timeout with
  | Some _ => PyPair k x
  | None => PyItem x
  end.

(** A computation that leaves every key but [k] as it found it. *)
Definition touches_only {V A} (k : string) (m : M (gmap string (list V)) A) : Prop :=
  ∀ σ k', k ≠ k' → exec m σ !! k' = σ !! k'.

Section any_call.
Context {V : Type} `{EqDecision V} {srv : Server}.
Local Abbreviation store := (gmap string (list V)).

(** The call on [self], the overridden methods resolved by its class; what
    the call returns is dropped, what it raises is kept. *)
Definition invoke (self : queue) (m : method V) : M store unit :=
  match m with
  | m_append x => append self x
  | m_appendleft x => appendleft self x
  | m_clear => RedisQueue.clear self
  | m_extend iterable => extend self iterable
  | m_extendleft iterable => extendleft self iterable
  | m_pop timeout => pop self timeout ;; ret ()
  | m_popleft timeout => popleft self timeout ;; ret ()
  | m_remove value => RedisQueue.remove self value
  | m_rotate => RedisQueue.rotate self
  | m_contains item => RedisQueue.__contains__ self item ;; ret ()
  | m_len => RedisQueue.__len__ self ;; ret ()
  | m_getitem i => RedisQueue.__getitem__ self i ;; ret ()
  | m_setitem i value => RedisQueue.__setitem__ self i value
  | m_iter => RedisQueue.__iter__ self ;; ret ()
  end.

(** [for _ in range(n): self.rotate()]. *)
Definition rotations (self : queue) (n : nat) : M store unit :=
  for_each (replicate n ()) (λ _, RedisQueue.rotate self).

(** [[m() for _ in range(n)]]: the results of [n] calls in a row. *)
Fixpoint collect {A} (n : nat) (m : M store A) : M store (list A) :=
  match n with
  | O => ret []
  | S n => a <- m ;; rest <- collect n m ;; ret (a :: rest)
  end.

End any_call.

(** ** Concrete queues and key spaces *)

(** The two behaviours of a server on a list that runs empty. *)
Definition keeps_empty_lists : Server := false.
Definition drops_them : Server := true.

Definition plain_q : queue := Queue RedisQueue "q".
Definition exclusive_q : queue := Queue ExclusiveQueue "q".

Definition no_keys : gmap string (list string) := ∅.
Definition abc : gmap string (list string) := {[ "q" := ["a"; "b"; "c"] ]}.
Definition twice_a : gmap string (list string) := {[ "q" := ["a"; "a"] ]}.
Definition once_a : gmap string (list string) := {[ "q" := ["a"] ]}.
Definition two_queues : gmap string (list string) :=
  {[ "q" := ["a"; "b"; "c"]; "other" := ["z"] ]}.


(** * Facts about the connection *)

Section store_facts.
Context {V : Type} `{EqDecision V} {srv : Server}.
Implicit Types (σ : gmap string (list V)) (k : string) (l : list V) (x : V).
Local Abbreviation contents := redis_conn.contents.
Local Abbreviation put := redis_conn.put.

Lemma contents_put k l σ : contents (put k l σ) k = l.
Proof.
  unfold redis_conn.contents, redis_conn.put.
  destruct l as [|x l]; [destruct drops_empty_lists|].
  - by rewrite lookup_delete_eq.
  - by rewrite lookup_insert_eq.
  - by rewrite lookup_insert_eq.
Qed.

Lemma contents_put_ne k k' l σ : k ≠ k' → contents (put k l σ) k' = contents σ k'.
Proof.
  intros Hne. unfold redis_conn.contents, redis_conn.put.
  destruct l as [|x l]; [destruct drops_empty_lists|].
  - by rewrite lookup_delete_ne.
  - by rewrite lookup_insert_ne.
  - by rewrite lookup_insert_ne.
Qed.

Lemma lookup_put_nonempty k l σ : l ≠ [] → put k l σ !! k = Some l.
Proof.
  intros Hl. unfold redis_conn.put. destruct l; [done|].
  by rewrite lookup_insert_eq.
Qed.

Lemma contents_lookup σ k l : σ !! k = Some l → contents σ k = l.
Proof. intros Hk. unfold redis_conn.contents. by rewrite Hk. Qed.

Lemma contents_absent σ k : σ !! k = None → contents σ k = [].
Proof. intros Hk. unfold redis_conn.contents. by rewrite Hk. Qed.

(** The range [0 .. -1] is the whole list, and [None] for an absent key. *)
Lemma lrange_full k σ : redis_conn.lrange k 0 (-1) σ = (Ok (σ !! k), σ).
Proof.
  unfold redis_conn.lrange. destruct (σ !! k) as [l|]; [|done].
  do 3 f_equal. cbn [Z.ltb Z.compare].
  destruct l as [|x l]; [done|].
  destruct (Z.ltb_spec (Z.of_nat (length (x :: l)) + -1) 0) as [Hlt|_].
  - simpl length in Hlt. lia.
  - replace (Z.to_nat (Z.of_nat (length (x :: l)) + -1 - 0 + 1))
      with (length (x :: l)) by lia.
    change (Z.to_nat 0) with 0%nat. rewrite drop_0. by rewrite firstn_all.
Qed.

Lemma resolve_index_Some n i j :
  redis_conn.resolve_index n i = Some j → (j < n)%nat.
Proof.
  unfold redis_conn.resolve_index.
  destruct (Z.leb_spec 0 i), (Z.ltb_spec i (Z.of_nat n)),
    (Z.leb_spec (- Z.of_nat n) i); intros [= <-]; lia.
Qed.

Lemma resolve_index_None n i :
  redis_conn.resolve_index n i = None ↔ ¬ (- Z.of_nat n ≤ i < Z.of_nat n).
Proof.
  unfold redis_conn.resolve_index.
  destruct (Z.leb_spec 0 i), (Z.ltb_spec i (Z.of_nat n)),
    (Z.leb_spec (- Z.of_nat n) i); split; (done || lia).
Qed.

Lemma in_list_item x l : in_list (PyItem x) l = bool_decide (x ∈ l).
Proof. done. Qed.

Lemma in_list_nil (item : pyval V) : in_list item [] = false.
Proof. by destruct item. Qed.

(** What [lrem] keeps no longer holds the value. *)
Lemma in_list_kept (value : pyval V) l :
  in_list value (filter (λ e, PyItem e ≠ value) l) = false.
Proof.
  destruct value as [|v|]; [done| |done]. simpl.
  apply bool_decide_eq_false. rewrite list_elem_of_filter.
  intros [Hne _]. by apply Hne.
Qed.

Lemma kept_all (value : pyval V) l :
  in_list value l = false → filter (λ e, PyItem e ≠ value) l = l.
Proof.
  intros Hin. induction l as [|y l IH]; [done|].
  destruct value as [|v|].
  - rewrite filter_cons_True by done. f_equal. by apply IH.
  - simpl in Hin. apply bool_decide_eq_false in Hin.
    rewrite filter_cons_True by set_solver. f_equal. apply IH.
    simpl. apply bool_decide_eq_false. set_solver.
  - rewrite filter_cons_True by done. f_equal. by apply IH.
Qed.

End store_facts.

(** * Running the methods *)

Section queue_facts.
Context {V : Type} `{EqDecision V} {srv : Server}.
Implicit Types (σ : gmap string (list V)) (l : list V) (x : V).
Implicit Types (self : queue) (item value : pyval V).
Local Abbreviation contents := redis_conn.contents.
Local Abbreviation put := redis_conn.put.

Lemma length_kept value l :
  length l = (length (filter (λ e, PyItem e ≠ value) l) + occurrences value l)%nat.
Proof.
  unfold occurrences. induction l as [|y l IH]; [done|].
  destruct (decide (PyItem y = value)) as [Heq|Hne].
  - rewrite (filter_cons_True (λ e, PyItem e = value)) by done.
    rewrite filter_cons_False by (intros Hn; by apply Hn).
    simpl. lia.
  - rewrite (filter_cons_False (λ e, PyItem e = value)) by done.
    rewrite filter_cons_True by done. simpl. lia.
Qed.

Lemma occurrences_0 value l : occurrences value l = 0%nat ↔ in_list value l = false.
Proof.
  unfold occurrences. induction l as [|y l IH].
  - by rewrite in_list_nil.
  - destruct (decide (PyItem y = value)) as [Heq|Hne].
    + rewrite filter_cons_True by done. subst value. simpl.
      split; [done|]. intros Hin. apply bool_decide_eq_false in Hin.
      exfalso. apply Hin, list_elem_of_here.
    + rewrite filter_cons_False by done. rewrite IH.
      destruct value as [|v|]; [done| |done]. simpl.
      rewrite !bool_decide_eq_false, not_elem_of_cons.
      split; [intros Hv; split; [congruence|done] | by intros [_ Hv]].
Qed.

Lemma lrem_run k value σ :
  redis_conn.lrem k value σ =
    (Ok (occurrences value (contents σ k)),
     if in_list value (contents σ k)
     then put k (filter (λ e, PyItem e ≠ value) (contents σ k)) σ
     else σ).
Proof.
  unfold redis_conn.lrem.
  pose proof (length_kept value (contents σ k)) as Hlen.
  pose proof (occurrences_0 value (contents σ k)) as Hocc.
  replace (length (contents σ k)
           - length (filter (λ e, PyItem e ≠ value) (contents σ k)))%nat
    with (occurrences value (contents σ k)) by lia.
  destruct (occurrences value (contents σ k)) as [|n];
    destruct (in_list value (contents σ k)); try done.
  - by destruct Hocc as [Hocc _]; specialize (Hocc eq_refl).
  - by destruct Hocc as [_ Hocc]; specialize (Hocc eq_refl).
Qed.

Lemma remove_run self value σ :
  RedisQueue.remove self value σ =
    if in_list value (contents σ (key self))
    then (Ok (), put (key self)
                   (filter (λ e, PyItem e ≠ value) (contents σ (key self))) σ)
    else (Raise ValueError, σ).
Proof.
  unfold RedisQueue.remove, bind. rewrite lrem_run.
  pose proof (occurrences_0 value (contents σ (key self))) as Hocc.
  destruct (in_list value (contents σ (key self)));
    destruct (occurrences value (contents σ (key self))); try done.
  - by destruct Hocc as [Hocc _]; specialize (Hocc eq_refl).
  - by destruct Hocc as [_ Hocc]; specialize (Hocc eq_refl).
Qed.

Lemma contains_run self item σ :
  RedisQueue.__contains__ self item σ = (Ok (in_list item <$> σ !! key self), σ).
Proof.
  unfold RedisQueue.__contains__, bind. rewrite lrange_full.
  by destruct (σ !! key self).
Qed.

Lemma contains_op_run self item σ :
  contains_op self item σ = (Ok (in_list item (contents σ (key self))), σ).
Proof.
  unfold contains_op, bind. rewrite contains_run.
  unfold redis_conn.contents, ret. destruct (σ !! key self); simpl; [done|].
  by rewrite in_list_nil.
Qed.

Lemma iter_run self σ :
  RedisQueue.__iter__ self σ =
    match σ !! key self with
    | Some members => (Ok members, σ)
    | None => (Raise TypeError, σ)
    end.
Proof.
  unfold RedisQueue.__iter__, bind. rewrite lrange_full.
  by destruct (σ !! key self).
Qed.

Lemma exclusive_append_run self x σ :
  ExclusiveQueue.append self x σ =
    (Ok (), if bool_decide (x ∈ contents σ (key self)) then σ
            else put (key self) (contents σ (key self) ++ [x]) σ).
Proof.
  unfold ExclusiveQueue.append, bind. rewrite contains_op_run, in_list_item.
  by destruct (bool_decide (x ∈ contents σ (key self))).
Qed.

Lemma exclusive_appendleft_run self x σ :
  ExclusiveQueue.appendleft self x σ =
    (Ok (), if bool_decide (x ∈ contents σ (key self)) then σ
            else put (key self) (x :: contents σ (key self)) σ).
Proof.
  unfold ExclusiveQueue.appendleft, bind. rewrite contains_op_run, in_list_item.
  by destruct (bool_decide (x ∈ contents σ (key self))).
Qed.

(** A loop whose body always returns, returns. *)
Lemma for_each_ok {A} (body : A → M (gmap string (list V)) unit) (xs : list A) σ :
  (∀ a σ', eval (body a) σ' = Ok ()) → eval (for_each xs body) σ = Ok ().
Proof.
  intros Hbody. revert σ. induction xs as [|a xs IH]; intros σ; [done|].
  unfold eval in *. simpl. unfold bind.
  specialize (Hbody a σ). destruct (body a σ) as [[[]|e] σ']; [|done].
  apply IH.
Qed.

Lemma for_each_cons {A} (body : A → M (gmap string (list V)) unit) a xs σ :
  eval (body a) σ = Ok () →
  for_each (a :: xs) body σ = for_each xs body (exec (body a) σ).
Proof.
  unfold eval, exec. simpl. unfold bind.
  by destruct (body a σ) as [[[]|e] σ']; [|done].
Qed.

Lemma exec_for_each_cons {A} (body : A → M (gmap string (list V)) unit) a xs σ :
  eval (body a) σ = Ok () →
  exec (for_each (a :: xs) body) σ = exec (for_each xs body) (exec (body a) σ).
Proof. intros Hok. unfold exec at 1 2. by rewrite for_each_cons. Qed.

End queue_facts.

(** * Properties of [RedisQueue] *)

Section redis_queue.
Context {V : Type} `{EqDecision V} {srv : Server}.
Implicit Types (σ : gmap string (list V)) (l : list V) (x : V).
Implicit Types (self : queue) (item value : pyval V).
Local Abbreviation contents := redis_conn.contents.
Local Abbreviation put := redis_conn.put.

(** C3. [RedisQueue.remove(value)] asks the server to delete every element
    equal to [value]: the count the server reports is the number of
    occurrences, what is left is the list without them, and nothing equal to
    [value] remains.  The method raises [ValueError] (the not-found error)
    exactly when that count is zero, and returns normally otherwise. *)
Theorem remove_all_or_ValueError self value σ :
  let l := contents σ (key self) in
  let σ' := exec (RedisQueue.remove self value) σ in
  eval (redis_conn.lrem (key self) value) σ = Ok (occurrences value l)
  ∧ contents σ' (key self) = filter (λ e, PyItem e ≠ value) l
  ∧ occurrences value (contents σ' (key self)) = 0%nat
  ∧ eval (RedisQueue.remove self value) σ =
      match occurrences value l with
      | O => Raise ValueError
      | S _ => Ok ()
      end
  ∧ (eval (RedisQueue.remove self value) σ = Raise ValueError
     ↔ occurrences value l = 0%nat).
Proof.
  intros l σ'. subst l σ'. unfold eval, exec.
  rewrite lrem_run, remove_run.
  pose proof (occurrences_0 value (contents σ (key self))) as Hocc.
  destruct (in_list value (contents σ (key self))) eqn:Hin; simpl.
  - rewrite contents_put.
    destruct (occurrences value (contents σ (key self))) as [|n] eqn:Hn.
    { by destruct Hocc as [Hocc _]; specialize (Hocc eq_refl). }
    repeat split; try done.
    apply occurrences_0, in_list_kept.
  - destruct Hocc as [_ Hocc]. rewrite (Hocc eq_refl).
    repeat split; try done.
    symmetry. by apply kept_all.
Qed.

(** C8. [RedisQueue.__contains__] makes one read of the range [0 .. -1],
    which is the whole list and leaves the store as it was, and returns
    whether the value is an element of that list; when no list exists under
    the key, the read answers [None] and so does the method, which is not
    [False]. *)
Theorem contains_snapshot_or_unknown self x σ :
  redis_conn.lrange (key self) 0 (-1) σ = (Ok (σ !! key self), σ)
  ∧ RedisQueue.__contains__ self (PyItem x) σ =
      (Ok (match σ !! key self with
           | None => None
           | Some members => Some (bool_decide (x ∈ members))
           end), σ).
Proof.
  split; [apply lrange_full|].
  rewrite contains_run. by destruct (σ !! key self).
Qed.

Lemma poppush_self_run k σ :
  redis_conn.poppush k k σ =
    match last (contents σ k) with
    | None => (Ok PyNone, σ)
    | Some x =>
        (Ok (PyItem x),
         put k (x :: removelast (contents σ k))
           (put k (removelast (contents σ k)) σ))
    end.
Proof.
  unfold redis_conn.poppush. destruct (last (contents σ k)); [|done].
  by rewrite contents_put.
Qed.

(** C5. [RedisQueue.rotate] is one move of the tail element to the head: it
    always returns, a list [l ++ [x]] becomes [x :: l], so [a, b, c] becomes
    [c, a, b], and on an empty sequence the store is left as it was. *)
Theorem rotate_one_step self σ :
  eval (RedisQueue.rotate self) σ = Ok ()
  ∧ (∀ l x, contents σ (key self) = l ++ [x] →
       contents (exec (RedisQueue.rotate self) σ) (key self) = x :: l)
  ∧ (∀ a b c, contents σ (key self) = [a; b; c] →
       contents (exec (RedisQueue.rotate self) σ) (key self) = [c; a; b])
  ∧ (contents σ (key self) = [] → exec (RedisQueue.rotate self) σ = σ).
Proof.
  assert (Hstep : ∀ l x, contents σ (key self) = l ++ [x] →
            contents (exec (RedisQueue.rotate self) σ) (key self) = x :: l).
  { intros l x Hl. unfold exec, RedisQueue.rotate, bind.
    rewrite poppush_self_run, Hl, last_snoc, removelast_last. simpl.
    by rewrite contents_put. }
  repeat split.
  - unfold eval, RedisQueue.rotate, bind. rewrite poppush_self_run.
    by destruct (last (contents σ (key self))).
  - exact Hstep.
  - intros a b c Hl. by apply (Hstep [a; b]).
  - intros Hl. unfold exec, RedisQueue.rotate, bind.
    by rewrite poppush_self_run, Hl.
Qed.

(** What a run of [append] calls leaves under the key. *)
Lemma appends_run self vs σ :
  let σ' := exec (for_each vs (RedisQueue.append self)) σ in
  eval (for_each vs (RedisQueue.append self)) σ = Ok ()
  ∧ contents σ' (key self) = contents σ (key self) ++ vs
  ∧ (is_Some (σ !! key self) ∨ vs ≠ [] →
     σ' !! key self = Some (contents σ (key self) ++ vs)).
Proof.
  simpl. split; [by apply for_each_ok|].
  revert σ. induction vs as [|v vs IH]; intros σ.
  - unfold exec. simpl. rewrite app_nil_r. split; [done|].
    intros [[l Hl]|?]; [|done]. by rewrite (contents_lookup _ _ _ Hl).
  - rewrite exec_for_each_cons by done.
    destruct (IH (exec (RedisQueue.append self v) σ)) as [IHc IHl].
    assert (Hv : exec (RedisQueue.append self v) σ !! key self
                 = Some (contents σ (key self) ++ [v])).
    { unfold exec, RedisQueue.append, redis_conn.rpush. simpl.
      rewrite lookup_put_nonempty; [done|]. by destruct (contents σ (key self)). }
    rewrite IHc, IHl by (left; by rewrite Hv).
    rewrite (contents_lookup _ _ _ Hv), <- app_assoc. done.
Qed.

(** X18. Starting from an empty sequence (the key holds the empty list, or
    holds no list yet and at least one value is appended), the calls
    [append(v1)] .. [append(vn)] all return, and iterating then yields
    [v1 .. vn] in that order.  The iteration is the list one read of the
    range [0 .. -1] answered, fetched before the walk starts and without
    touching the store; an iteration started after a further [append(w)]
    reads again and yields [v1 .. vn, w]. *)
Theorem append_then_iterate self vs σ :
  contents σ (key self) = [] →
  (vs = [] → is_Some (σ !! key self)) →
  let σ' := exec (for_each vs (RedisQueue.append self)) σ in
  eval (for_each vs (RedisQueue.append self)) σ = Ok ()
  ∧ redis_conn.lrange (key self) 0 (-1) σ' = (Ok (Some vs), σ')
  ∧ RedisQueue.__iter__ self σ' = (Ok vs, σ')
  ∧ ∀ w, eval (RedisQueue.__iter__ self) (exec (RedisQueue.append self w) σ')
         = Ok (vs ++ [w]).
Proof.
  intros Hempty Hex σ'.
  destruct (appends_run self vs σ) as (Hok & Hc & Hl). fold σ' in Hc, Hl.
  rewrite Hempty in Hc, Hl. simpl in Hc, Hl.
  assert (Hk : σ' !! key self = Some vs).
  { apply Hl. destruct vs; [left; by apply Hex | by right]. }
  split; [done|]. split; [by rewrite lrange_full, Hk|].
  split; [by rewrite iter_run, Hk|].
  intros w. unfold eval. rewrite iter_run.
  unfold exec, RedisQueue.append, redis_conn.rpush. simpl.
  rewrite lookup_put_nonempty, Hc; [done|]. by destruct (contents σ' (key self)).
Qed.

(** On a key that holds no list the range read answers [None], and
    [__iter__] raises [TypeError] on it. *)
Lemma iter_absent_key self σ :
  σ !! key self = None → RedisQueue.__iter__ self σ = (Raise TypeError, σ).
Proof. intros Hk. by rewrite iter_run, Hk. Qed.

Lemma appendlefts_run self vs σ :
  eval (for_each vs (RedisQueue.appendleft self)) σ = Ok ()
  ∧ contents (exec (for_each vs (RedisQueue.appendleft self)) σ) (key self)
    = reverse vs ++ contents σ (key self).
Proof.
  split; [by apply for_each_ok|].
  revert σ. induction vs as [|v vs IH]; intros σ; [done|].
  rewrite exec_for_each_cons, IH by done.
  unfold exec, RedisQueue.appendleft, redis_conn.lpush. simpl.
  by rewrite contents_put, reverse_cons, <- app_assoc.
Qed.

(** C6. On a plain [RedisQueue], [extendleft(xs)] is the loop that calls
    [appendleft] on each element of [xs] in input order; it returns, and the
    sequence is then [xs] reversed followed by what was there before.  The
    same values passed to [append] one by one (which is what [extend] does)
    end up after the old contents in input order. *)
Theorem extendleft_reverses self xs σ :
  cls self = RedisQueue →
  extendleft (V:=V) self xs = for_each xs (RedisQueue.appendleft self)
  ∧ eval (extendleft self xs) σ = Ok ()
  ∧ contents (exec (extendleft self xs) σ) (key self)
    = reverse xs ++ contents σ (key self)
  ∧ contents (exec (for_each xs (RedisQueue.append self)) σ) (key self)
    = contents σ (key self) ++ xs
  ∧ contents (exec (extend self xs) σ) (key self)
    = contents σ (key self) ++ xs.
Proof.
  intros Hcls.
  assert (Hl : extendleft (V:=V) self xs = for_each xs (RedisQueue.appendleft self)).
  { unfold extendleft, appendleft. by rewrite Hcls. }
  assert (Hr : extend (V:=V) self xs = for_each xs (RedisQueue.append self)).
  { unfold extend, append. by rewrite Hcls. }
  rewrite Hl, Hr.
  destruct (appendlefts_run self xs σ) as [Hok Hc].
  destruct (appends_run self xs σ) as (_ & Hc' & _).
  done.
Qed.

(** C7. [RedisQueue.__setitem__(i, v)] raises [IndexError], wrapping the
    server's error, exactly when [i] is outside the bounds of the sequence
    ([-n <= i < n] for a sequence of [n] elements, by the store's index
    convention), so in particular for every [i >= n].  Within bounds the
    write returns, and [__getitem__(i)] then returns [v]. *)
Theorem setitem_IndexError_iff_out_of_bounds self i v σ :
  let n := Z.of_nat (length (contents σ (key self))) in
  ((∃ e, eval (RedisQueue.__setitem__ self i v) σ
         = Raise (IndexError (ResponseError e)))
   ↔ ¬ (- n ≤ i < n))
  ∧ (n ≤ i → ∃ e, eval (RedisQueue.__setitem__ self i v) σ
                  = Raise (IndexError (ResponseError e)))
  ∧ (- n ≤ i < n →
     eval (RedisQueue.__setitem__ self i v) σ = Ok ()
     ∧ eval (RedisQueue.__getitem__ self i)
         (exec (RedisQueue.__setitem__ self i v) σ) = Ok (PyItem v)).
Proof.
  intros n.
  assert (Hout : ¬ (- n ≤ i < n) →
            ∃ e, eval (RedisQueue.__setitem__ self i v) σ
                 = Raise (IndexError (ResponseError e))).
  { intros Hb. unfold eval, RedisQueue.__setitem__, try_except, redis_conn.lset.
    destruct (σ !! key self) as [l|] eqn:Hk; [|by eexists].
    subst n. rewrite (contents_lookup _ _ _ Hk) in Hb.
    apply resolve_index_None in Hb. rewrite Hb. by eexists. }
  assert (Hin : - n ≤ i < n →
            eval (RedisQueue.__setitem__ self i v) σ = Ok ()
            ∧ eval (RedisQueue.__getitem__ self i)
                (exec (RedisQueue.__setitem__ self i v) σ) = Ok (PyItem v)).
  { intros Hb. unfold eval, exec, RedisQueue.__setitem__, try_except, redis_conn.lset.
    destruct (σ !! key self) as [l|] eqn:Hk.
    2:{ subst n. rewrite (contents_absent _ _ Hk) in Hb. simpl in Hb. lia. }
    subst n. rewrite (contents_lookup _ _ _ Hk) in Hb.
    destruct (redis_conn.resolve_index (length l) i) as [j|] eqn:Hj.
    2:{ apply resolve_index_None in Hj. by destruct Hj. }
    split; [done|]. simpl.
    unfold RedisQueue.__getitem__, bind, redis_conn.lindex.
    rewrite contents_put, length_insert, Hj.
    rewrite list_lookup_insert_eq; [done|]. by eapply resolve_index_Some. }
  split; [split|split]; try done.
  - intros [e He] Hb. destruct (Hin Hb) as [Hok _]. congruence.
  - intros Hge. apply Hout. lia.
Qed.

End redis_queue.

(** * Properties of [ExclusiveQueue] *)

Section exclusive_queue.
Context {V : Type} `{EqDecision V} {srv : Server}.
Implicit Types (σ : gmap string (list V)) (l : list V) (x : V).
Implicit Types (self : queue) (item value : pyval V).
Local Abbreviation contents := redis_conn.contents.
Local Abbreviation put := redis_conn.put.

Lemma push_once_NoDup l (c : push_call V) : NoDup l → NoDup (push_once l c).
Proof.
  intros Hl. destruct c as [x|x]; simpl;
    unfold push_tail_once, push_head_once; case_bool_decide as Hx; try done.
  - apply NoDup_app. split; [done|]. split; [|apply NoDup_singleton].
    intros y Hy Hyx. apply list_elem_of_singleton in Hyx. by subst y.
  - by apply NoDup_cons.
Qed.

Lemma foldl_push_once_NoDup (calls : list (push_call V)) l :
  NoDup l → NoDup (foldl push_once l calls).
Proof.
  revert l. induction calls as [|c calls IH]; intros l Hl; [done|].
  simpl. by apply IH, push_once_NoDup.
Qed.

Lemma call_run self (c : push_call V) σ :
  eval (call self c) σ = Ok ()
  ∧ contents (exec (call self c) σ) (key self) = push_once (contents σ (key self)) c.
Proof.
  unfold eval, exec.
  destruct c as [x|x]; simpl;
    rewrite ?exclusive_append_run, ?exclusive_appendleft_run;
    unfold push_tail_once, push_head_once; simpl;
    (split; [done|]); case_bool_decide; by rewrite ?contents_put.
Qed.

Lemma calls_run self (calls : list (push_call V)) σ :
  eval (for_each calls (call self)) σ = Ok ()
  ∧ contents (exec (for_each calls (call self)) σ) (key self)
    = foldl push_once (contents σ (key self)) calls.
Proof.
  split; [apply for_each_ok; intros; apply call_run|].
  revert σ. induction calls as [|c calls IH]; intros σ; [done|].
  rewrite exec_for_each_cons, IH by apply call_run. simpl.
  f_equal. apply call_run.
Qed.

Lemma NoDup_occurrences value l : NoDup l → (occurrences value l ≤ 1)%nat.
Proof.
  unfold occurrences. induction 1 as [|y l Hy Hl IH]; [simpl; lia|].
  destruct (decide (PyItem y = value)) as [Heq|Hne].
  - rewrite filter_cons_True by done. subst value.
    assert (Hz : occurrences (PyItem y) l = 0%nat).
    { apply occurrences_0. simpl. by apply bool_decide_eq_false. }
    unfold occurrences in Hz. cbn [length]. rewrite Hz. lia.
  - rewrite filter_cons_False by done. done.
Qed.

(** C2. From an empty sequence, any finite run of [ExclusiveQueue.append]
    and [ExclusiveQueue.appendleft] calls by one caller returns, each call
    being a push that the membership check skips when the value is already
    there, and afterwards no value occurs twice in the sequence. *)
Theorem exclusive_pushes_at_most_once self (calls : list (push_call V)) σ :
  contents σ (key self) = [] →
  let σ' := exec (for_each calls (call self)) σ in
  eval (for_each calls (call self)) σ = Ok ()
  ∧ contents σ' (key self) = foldl push_once [] calls
  ∧ NoDup (contents σ' (key self))
  ∧ ∀ x, (occurrences (PyItem x) (contents σ' (key self)) ≤ 1)%nat.
Proof.
  intros Hempty σ'. destruct (calls_run self calls σ) as [Hok Hc].
  fold σ' in Hc. rewrite Hempty in Hc.
  assert (Hnd : NoDup (contents σ' (key self))).
  { rewrite Hc. apply foldl_push_once_NoDup, NoDup_nil_2. }
  repeat split; try done. intros x. by apply NoDup_occurrences.
Qed.

Lemma exclusive_extend_calls self xs :
  cls self = ExclusiveQueue →
  extend (V:=V) self xs = for_each (Append <$> xs) (call self)
  ∧ extendleft (V:=V) self xs = for_each (AppendLeft <$> xs) (call self).
Proof.
  intros Hcls. unfold extend, extendleft, append, appendleft. rewrite Hcls.
  split; induction xs as [|x xs IH]; simpl; by rewrite ?IH.
Qed.

(** C9. On an [ExclusiveQueue] the inherited [extend] and [extendleft]
    reach the overriding [append] and [appendleft]: each element of the
    argument is pushed only if it is not in the sequence at that moment, both
    loops return, and a sequence without repeated values stays without
    repeated values. *)
Theorem exclusive_extend_at_most_once self xs σ :
  cls self = ExclusiveQueue →
  NoDup (contents σ (key self)) →
  extend (V:=V) self xs = for_each xs (ExclusiveQueue.append self)
  ∧ extendleft (V:=V) self xs = for_each xs (ExclusiveQueue.appendleft self)
  ∧ eval (extend self xs) σ = Ok ()
  ∧ eval (extendleft self xs) σ = Ok ()
  ∧ contents (exec (extend self xs) σ) (key self)
    = foldl push_tail_once (contents σ (key self)) xs
  ∧ contents (exec (extendleft self xs) σ) (key self)
    = foldl push_head_once (contents σ (key self)) xs
  ∧ NoDup (contents (exec (extend self xs) σ) (key self))
  ∧ NoDup (contents (exec (extendleft self xs) σ) (key self)).
Proof.
  intros Hcls Hnd.
  split; [by unfold extend, append; rewrite Hcls|].
  split; [by unfold extendleft, appendleft; rewrite Hcls|].
  destruct (exclusive_extend_calls self xs Hcls) as [-> ->].
  destruct (calls_run self (Append <$> xs) σ) as [Hok Hc].
  destruct (calls_run self (AppendLeft <$> xs) σ) as [Hok' Hc'].
  rewrite Hc, Hc'. repeat split; try done.
  - by rewrite foldl_fmap.
  - by rewrite foldl_fmap.
  - by apply foldl_push_once_NoDup.
  - by apply foldl_push_once_NoDup.
Qed.

(** [try: self.remove(item) except ValueError: pass] always returns, and
    leaves the sequence without anything equal to [item]. *)
Lemma remove_swallowed_run self item σ :
  try_except (RedisQueue.remove self item) is_ValueError (λ _, ret ()) σ =
    (Ok (), if in_list item (contents σ (key self))
            then put (key self)
                   (filter (λ e, PyItem e ≠ item) (contents σ (key self))) σ
            else σ).
Proof.
  unfold try_except. rewrite remove_run.
  by destruct (in_list item (contents σ (key self))).
Qed.

Lemma remove_swallowed_contents self item σ :
  contents (exec (try_except (RedisQueue.remove self item) is_ValueError
                    (λ _, ret ())) σ) (key self)
  = filter (λ e, PyItem e ≠ item) (contents σ (key self)).
Proof.
  unfold exec. rewrite remove_swallowed_run. simpl.
  destruct (in_list item (contents σ (key self))) eqn:Hin.
  - by rewrite contents_put.
  - symmetry. by apply kept_all.
Qed.

(** X1. Without a timeout, [ExclusiveQueue.pop] returns the tail element (or
    [None] on an empty sequence), what is left is the rest of the sequence
    without anything equal to what was returned, and a membership test for
    the returned value then answers false. *)
Lemma exclusive_pop_no_timeout self σ :
  let item := from_option PyItem PyNone (last (contents σ (key self))) in
  let σ' := exec (ExclusiveQueue.pop self None) σ in
  eval (ExclusiveQueue.pop self None) σ = Ok item
  ∧ contents σ' (key self)
    = filter (λ e, PyItem e ≠ item) (removelast (contents σ (key self)))
  ∧ in_list item (contents σ' (key self)) = false
  ∧ eval (contains_op self item) σ' = Ok false.
Proof.
  intros item σ'.
  assert (Hrun : ExclusiveQueue.pop self None σ =
            (Ok item,
             exec (try_except (RedisQueue.remove self item) is_ValueError
                     (λ _, ret ()))
               (exec (RedisQueue.pop self None) σ))
          ∧ contents (exec (RedisQueue.pop self None) σ) (key self)
            = removelast (contents σ (key self))).
  { subst item. unfold ExclusiveQueue.pop, RedisQueue.pop, bind, exec,
      redis_conn.rpop.
    destruct (last (contents σ (key self))) as [x|] eqn:Hlast; simpl.
    - rewrite remove_swallowed_run. by rewrite contents_put.
    - rewrite remove_swallowed_run. apply last_None in Hlast.
      by rewrite Hlast. }
  destruct Hrun as [Hrun Hpop].
  assert (Hc : contents σ' (key self)
               = filter (λ e, PyItem e ≠ item) (removelast (contents σ (key self)))).
  { subst σ'. unfold exec at 1. rewrite Hrun. simpl.
    by rewrite remove_swallowed_contents, Hpop. }
  unfold eval. rewrite Hrun, contains_op_run, Hc, in_list_kept. done.
Qed.

(** X2. Without a timeout, [ExclusiveQueue.popleft] returns the head element
    (or [None] on an empty sequence), what is left is the rest of the
    sequence without anything equal to what was returned, and a membership
    test for the returned value then answers false. *)
Lemma exclusive_popleft_no_timeout self σ :
  let item := from_option PyItem PyNone (head (contents σ (key self))) in
  let σ' := exec (ExclusiveQueue.popleft self None) σ in
  eval (ExclusiveQueue.popleft self None) σ = Ok item
  ∧ contents σ' (key self)
    = filter (λ e, PyItem e ≠ item) (tail (contents σ (key self)))
  ∧ in_list item (contents σ' (key self)) = false
  ∧ eval (contains_op self item) σ' = Ok false.
Proof.
  intros item σ'.
  assert (Hrun : ExclusiveQueue.popleft self None σ =
            (Ok item,
             exec (try_except (RedisQueue.remove self item) is_ValueError
                     (λ _, ret ()))
               (exec (RedisQueue.popleft self None) σ))
          ∧ contents (exec (RedisQueue.popleft self None) σ) (key self)
            = tail (contents σ (key self))).
  { subst item. unfold ExclusiveQueue.popleft, RedisQueue.popleft, bind, exec,
      redis_conn.lpop.
    destruct (contents σ (key self)) as [|x l] eqn:Hl; simpl.
    - by rewrite remove_swallowed_run, Hl.
    - rewrite remove_swallowed_run. by rewrite contents_put. }
  destruct Hrun as [Hrun Hpop].
  assert (Hc : contents σ' (key self)
               = filter (λ e, PyItem e ≠ item) (tail (contents σ (key self)))).
  { subst σ'. unfold exec at 1. rewrite Hrun. simpl.
    by rewrite remove_swallowed_contents, Hpop. }
  unfold eval. rewrite Hrun, contains_op_run, Hc, in_list_kept. done.
Qed.

(** C10. On an empty sequence and without a timeout, [ExclusiveQueue.pop]
    and [ExclusiveQueue.popleft] return [None] and leave the store exactly as
    it was: the inner [remove(None)] removes nothing, which makes it raise
    [ValueError], and the method swallows that. *)
Theorem exclusive_pop_empty self σ :
  contents σ (key self) = [] →
  ExclusiveQueue.pop self None σ = (Ok PyNone, σ)
  ∧ ExclusiveQueue.popleft self None σ = (Ok PyNone, σ)
  ∧ RedisQueue.pop self None σ = (Ok PyNone, σ)
  ∧ RedisQueue.popleft self None σ = (Ok PyNone, σ)
  ∧ redis_conn.lrem (key self) PyNone σ = (Ok 0%nat, σ)
  ∧ RedisQueue.remove self PyNone σ = (Raise ValueError, σ).
Proof.
  intros Hempty.
  assert (Hpop : RedisQueue.pop self None σ = (Ok PyNone, σ)).
  { unfold RedisQueue.pop, bind, redis_conn.rpop. by rewrite Hempty. }
  assert (Hpopleft : RedisQueue.popleft self None σ = (Ok PyNone, σ)).
  { unfold RedisQueue.popleft, bind, redis_conn.lpop. by rewrite Hempty. }
  assert (Hswallow : try_except (RedisQueue.remove self PyNone) is_ValueError
                       (λ _, ret ()) σ = (Ok (), σ)).
  { by rewrite remove_swallowed_run, Hempty. }
  repeat split; try done.
  - unfold ExclusiveQueue.pop, bind. by rewrite Hpop, Hswallow.
  - unfold ExclusiveQueue.popleft, bind. by rewrite Hpopleft, Hswallow.
  - by rewrite lrem_run, Hempty.
  - by rewrite remove_run, Hempty.
Qed.

End exclusive_queue.

(** * The properties at concrete queues *)

(** C1. [ExclusiveQueue.pop] with a timeout on the sequence [a, a]: the
    blocking pop answers the pair of the key and the element, the method
    passes that pair to [remove], which finds nothing equal to it, and the
    other [a] stays: the call returns the pair, leaves [a] in the sequence,
    and a membership test for the popped element answers true.  Without a
    timeout the same call returns [a] and leaves nothing equal to it. *)
Lemma exclusive_pop_timeout_keeps_duplicate (srv : Server) :
  ExclusiveQueue.pop exclusive_q (Some 1%nat) twice_a = (Ok (PyPair "q" "a"), once_a)
  ∧ RedisQueue.remove exclusive_q (PyPair "q" "a") once_a = (Raise ValueError, once_a)
  ∧ redis_conn.contents once_a "q" = ["a"]
  ∧ eval (contains_op exclusive_q (PyItem "a")) once_a = Ok true
  ∧ eval (ExclusiveQueue.pop exclusive_q None) twice_a = Ok (PyItem "a")
  ∧ redis_conn.contents (exec (ExclusiveQueue.pop exclusive_q None) twice_a) "q" = [].
Proof. destruct srv; vm_compute; done. Qed.

Lemma exclusive_pushes_at_most_once_witness :
  redis_conn.contents
    (exec (for_each [Append "a"; Append "b"; Append "a"]
             (call (srv:=keeps_empty_lists) exclusive_q)) no_keys) "q"
  = ["a"; "b"].
Proof.
  destruct (exclusive_pushes_at_most_once (srv:=keeps_empty_lists) exclusive_q
              [Append "a"; Append "b"; Append "a"] no_keys)
    as (_ & Hc & _); [reflexivity|].
  exact Hc.
Defined.

(** C4. Iterating a queue whose key holds no list, with no [append] made
    first: the sequence is empty (its length is zero and a pop answers
    [None]), the range read answers [None], and [__iter__] hands that [None]
    to [iter], which raises [TypeError] where the empty iteration was due.
    The sibling [__contains__] meets the same answer and guards it.  The
    same happens on a key that [clear] has deleted, and on a server that
    drops a list that runs empty also after [append] and [pop]. *)
Lemma iterate_absent_key_raises (srv : Server) :
  redis_conn.contents no_keys "q" = []
  ∧ eval (RedisQueue.__len__ plain_q) no_keys = Ok 0%nat
  ∧ eval (RedisQueue.pop plain_q None) no_keys = Ok PyNone
  ∧ for_each [] (RedisQueue.append plain_q) no_keys = (Ok (), no_keys)
  ∧ redis_conn.lrange "q" 0 (-1) no_keys = (Ok None, no_keys)
  ∧ RedisQueue.__iter__ plain_q no_keys = (Raise TypeError, no_keys)
  ∧ eval (RedisQueue.__contains__ plain_q (PyItem "a")) no_keys = Ok None
  ∧ eval (RedisQueue.__iter__ plain_q) (exec (RedisQueue.clear plain_q) abc)
    = Raise TypeError
  ∧ eval (RedisQueue.__iter__ plain_q)
      (exec (RedisQueue.pop (srv:=drops_them) plain_q None)
         (exec (RedisQueue.append (srv:=drops_them) plain_q "a") no_keys))
    = Raise TypeError.
Proof. destruct srv; vm_compute; done. Qed.

Lemma append_then_iterate_witness :
  eval (RedisQueue.__iter__ plain_q)
    (exec (for_each ["a"; "b"; "c"]
             (RedisQueue.append (srv:=keeps_empty_lists) plain_q)) no_keys)
  = Ok ["a"; "b"; "c"].
Proof.
  destruct (append_then_iterate (srv:=keeps_empty_lists) plain_q
              ["a"; "b"; "c"] no_keys)
    as (_ & _ & Hiter & _); [reflexivity | discriminate |].
  unfold eval. rewrite Hiter. reflexivity.
Defined.

Lemma rotate_one_step_witness :
  redis_conn.contents
    (exec (RedisQueue.rotate (srv:=keeps_empty_lists) plain_q) abc) "q"
  = ["c"; "a"; "b"].
Proof.
  destruct (rotate_one_step (srv:=keeps_empty_lists) plain_q abc)
    as (_ & _ & Habc & _).
  apply (Habc "a" "b" "c"). reflexivity.
Defined.

Lemma extendleft_reverses_witness :
  redis_conn.contents
    (exec (extendleft (srv:=keeps_empty_lists) plain_q ["x"; "y"; "z"]) abc) "q"
  = ["z"; "y"; "x"; "a"; "b"; "c"].
Proof.
  destruct (extendleft_reverses (srv:=keeps_empty_lists) plain_q
              ["x"; "y"; "z"] abc) as (_ & _ & Hc & _); [reflexivity|].
  exact Hc.
Defined.

Lemma setitem_IndexError_iff_out_of_bounds_witness :
  eval (RedisQueue.__setitem__ (srv:=keeps_empty_lists) plain_q (-1) "z") abc = Ok ()
  ∧ eval (RedisQueue.__getitem__ plain_q (-1))
      (exec (RedisQueue.__setitem__ (srv:=keeps_empty_lists) plain_q (-1) "z") abc)
    = Ok (PyItem "z")
  ∧ ∃ e, eval (RedisQueue.__setitem__ (srv:=keeps_empty_lists) plain_q 3 "z") abc
         = Raise (IndexError (ResponseError e)).
Proof.
  destruct (setitem_IndexError_iff_out_of_bounds (srv:=keeps_empty_lists)
              plain_q (-1) "z" abc) as (_ & _ & Hin).
  destruct (setitem_IndexError_iff_out_of_bounds (srv:=keeps_empty_lists)
              plain_q 3 "z" abc) as (_ & Hge & _).
  split; [apply Hin; vm_compute; split; [discriminate | reflexivity]|].
  split; [apply Hin; vm_compute; split; [discriminate | reflexivity]|].
  apply Hge. vm_compute. discriminate.
Defined.

Lemma exclusive_extend_at_most_once_witness :
  redis_conn.contents
    (exec (extend (srv:=keeps_empty_lists) exclusive_q ["b"; "d"; "d"]) abc) "q"
  = ["a"; "b"; "c"; "d"]
  ∧ NoDup (redis_conn.contents
             (exec (extendleft (srv:=keeps_empty_lists) exclusive_q ["b"; "d"; "d"])
                abc) "q").
Proof.
  destruct (exclusive_extend_at_most_once (srv:=keeps_empty_lists) exclusive_q
              ["b"; "d"; "d"] abc) as (_ & _ & _ & _ & Hc & _ & _ & Hnd).
  - reflexivity.
  - change (NoDup ["a"; "b"; "c"]). by apply (bool_decide_unpack _).
  - split; [exact Hc | exact Hnd].
Defined.

Lemma exclusive_pop_empty_witness :
  ExclusiveQueue.pop (srv:=drops_them) exclusive_q None no_keys = (Ok PyNone, no_keys)
  ∧ ExclusiveQueue.popleft (srv:=drops_them) exclusive_q None no_keys
    = (Ok PyNone, no_keys).
Proof.
  destruct (exclusive_pop_empty (srv:=drops_them) exclusive_q no_keys)
    as (Hpop & Hpopleft & _); [reflexivity|].
  split; [exact Hpop | exact Hpopleft].
Defined.

(** * Further properties: what a call can touch *)

Section isolation.
Context {V : Type} `{EqDecision V} {srv : Server}.
Implicit Types (σ : gmap string (list V)) (k : string) (l : list V) (x : V).
Implicit Types (self : queue) (item value : pyval V).
Local Abbreviation contents := redis_conn.contents.
Local Abbreviation put := redis_conn.put.

Lemma lookup_put_ne k k' l σ : k ≠ k' → put k l σ !! k' = σ !! k'.
Proof.
  intros Hne. unfold redis_conn.put.
  destruct l as [|x l]; [destruct drops_empty_lists|].
  - by rewrite lookup_delete_ne.
  - by rewrite lookup_insert_ne.
  - by rewrite lookup_insert_ne.
Qed.

Lemma touches_only_ret {A} k (a : A) : touches_only (V:=V) k (ret a).
Proof. by intros σ k' _. Qed.

Lemma touches_only_raise {A} k e : touches_only (V:=V) (A:=A) k (raise e).
Proof. by intros σ k' _. Qed.

Lemma touches_only_bind {A B} k (m : M (gmap string (list V)) A)
    (f : A → M (gmap string (list V)) B) :
  touches_only k m → (∀ a, touches_only k (f a)) → touches_only k (bind m f).
Proof.
  intros Hm Hf σ k' Hne. specialize (Hm σ k' Hne).
  unfold exec, bind in *. destruct (m σ) as [[a|e] σ']; simpl in *; [|done].
  rewrite <- Hm. by apply Hf.
Qed.

Lemma touches_only_try_except {A} k (m : M (gmap string (list V)) A) handles h :
  touches_only k m → (∀ e, touches_only k (h e)) →
  touches_only k (try_except m handles h).
Proof.
  intros Hm Hh σ k' Hne. specialize (Hm σ k' Hne).
  unfold exec, try_except in *. destruct (m σ) as [[a|e] σ']; simpl in *; [done|].
  destruct (handles e); [|done]. rewrite <- Hm. by apply Hh.
Qed.

Lemma touches_only_for_each {A} k (xs : list A)
    (body : A → M (gmap string (list V)) unit) :
  (∀ a, touches_only k (body a)) → touches_only k (for_each xs body).
Proof.
  intros Hbody. induction xs as [|a xs IH]; simpl.
  - apply touches_only_ret.
  - apply touches_only_bind; [apply Hbody | by intros _].
Qed.

(** Each command of the connection writes under the key it is given and
    nowhere else. *)
Lemma touches_only_commands k :
  (∀ x, touches_only k (redis_conn.rpush k x))
  ∧ (∀ x, touches_only k (redis_conn.lpush k x))
  ∧ touches_only k (redis_conn.rpop (V:=V) k)
  ∧ touches_only k (redis_conn.lpop (V:=V) k)
  ∧ (∀ t, touches_only k (redis_conn.brpop (V:=V) k t))
  ∧ (∀ t, touches_only k (redis_conn.blpop (V:=V) k t))
  ∧ (∀ value, touches_only k (redis_conn.lrem k value))
  ∧ touches_only k (redis_conn.poppush (V:=V) k k)
  ∧ (∀ i (v : V), touches_only k (redis_conn.lset k i v))
  ∧ touches_only k (redis_conn.delete (V:=V) k).
Proof.
  repeat split; intros; intros σ k' Hne; unfold exec.
  - by apply lookup_put_ne.
  - by apply lookup_put_ne.
  - unfold redis_conn.rpop. destruct (last (contents σ k)); [|done].
    by apply lookup_put_ne.
  - unfold redis_conn.lpop. destruct (contents σ k); [done|].
    by apply lookup_put_ne.
  - unfold redis_conn.brpop. destruct (last (contents σ k)); [|done].
    by apply lookup_put_ne.
  - unfold redis_conn.blpop. destruct (contents σ k); [done|].
    by apply lookup_put_ne.
  - unfold redis_conn.lrem. simpl.
    destruct (length (contents σ k) - length _)%nat; [done|].
    by apply lookup_put_ne.
  - unfold redis_conn.poppush. destruct (last (contents σ k)); [|done].
    simpl. by rewrite !lookup_put_ne.
  - unfold redis_conn.lset. destruct (σ !! k) as [l|]; [|done].
    destruct (redis_conn.resolve_index (length l) i); [|done].
    by apply lookup_put_ne.
  - simpl. by apply lookup_delete_ne.
Qed.

(** The commands that only read leave the whole key space as it was. *)
Lemma lrange_reads k start stop σ : exec (redis_conn.lrange (V:=V) k start stop) σ = σ.
Proof. unfold exec, redis_conn.lrange. by destruct (σ !! k). Qed.

Lemma lindex_reads k i σ : exec (redis_conn.lindex (V:=V) k i) σ = σ.
Proof.
  unfold exec, redis_conn.lindex.
  destruct (redis_conn.resolve_index _ i); [|done].
  by destruct (contents σ k !! _).
Qed.

Lemma invoke_touches_only self (m : method V) : touches_only (key self) (invoke self m).
Proof.
  destruct (touches_only_commands (key self))
    as (Hrpush & Hlpush & Hrpop & Hlpop & Hbrpop & Hblpop & Hlrem & Hpoppush
        & Hlset & Hdelete).
  assert (Hread : ∀ {A} (m : M (gmap string (list V)) A),
            (∀ σ, exec m σ = σ) → touches_only (key self) m).
  { intros A m' Hm σ k' _. by rewrite Hm. }
  assert (Hcontains : ∀ item, touches_only (key self) (contains_op self item)).
  { intros item. apply touches_only_bind; [|intros; apply touches_only_ret].
    apply touches_only_bind; [|intros; apply touches_only_ret].
    apply Hread. apply lrange_reads. }
  assert (Hremove : ∀ value, touches_only (key self) (RedisQueue.remove self value)).
  { intros value. apply touches_only_bind; [apply Hlrem|].
    intros n. destruct (n =? 0)%nat;
      [apply touches_only_raise | apply touches_only_ret]. }
  assert (Happend : ∀ x, touches_only (key self) (append self x)).
  { intros x. unfold append. destruct (cls self); [apply Hrpush|].
    apply touches_only_bind; [apply Hcontains|].
    intros b. destruct (negb b); [apply Hrpush | apply touches_only_ret]. }
  assert (Happendleft : ∀ x, touches_only (key self) (appendleft self x)).
  { intros x. unfold appendleft. destruct (cls self); [apply Hlpush|].
    apply touches_only_bind; [apply Hcontains|].
    intros b. destruct (negb b); [apply Hlpush | apply touches_only_ret]. }
  assert (Hpop : ∀ t, touches_only (key self) (RedisQueue.pop (V:=V) self t)).
  { intros t. apply touches_only_bind; [|intros; apply touches_only_ret].
    destruct t; [apply Hbrpop | apply Hrpop]. }
  assert (Hpopleft : ∀ t, touches_only (key self) (RedisQueue.popleft (V:=V) self t)).
  { intros t. apply touches_only_bind; [|intros; apply touches_only_ret].
    destruct t; [apply Hblpop | apply Hlpop]. }
  assert (Hswallow : ∀ item,
            touches_only (key self)
              (try_except (RedisQueue.remove self item) is_ValueError
                 (λ _, ret ()))).
  { intros item. apply touches_only_try_except; [apply Hremove|].
    intros; apply touches_only_ret. }
  destruct m; simpl.
  - apply Happend.
  - apply Happendleft.
  - apply Hdelete.
  - by apply touches_only_for_each.
  - by apply touches_only_for_each.
  - apply touches_only_bind; [|intros; apply touches_only_ret].
    unfold pop. destruct (cls self); [apply Hpop|].
    apply touches_only_bind; [apply Hpop|]. intros item.
    apply touches_only_bind; [apply Hswallow | intros; apply touches_only_ret].
  - apply touches_only_bind; [|intros; apply touches_only_ret].
    unfold popleft. destruct (cls self); [apply Hpopleft|].
    apply touches_only_bind; [apply Hpopleft|]. intros item.
    apply touches_only_bind; [apply Hswallow | intros; apply touches_only_ret].
  - apply Hremove.
  - apply touches_only_bind; [apply Hpoppush | intros; apply touches_only_ret].
  - apply touches_only_bind; [|intros; apply touches_only_ret].
    apply touches_only_bind; [|intros; apply touches_only_ret].
    apply Hread, lrange_reads.
  - apply touches_only_bind; [|intros; apply touches_only_ret].
    by apply Hread.
  - apply touches_only_bind; [|intros; apply touches_only_ret].
    apply touches_only_bind; [|intros; apply touches_only_ret].
    apply Hread, lindex_reads.
  - apply touches_only_try_except; [apply Hlset|].
    intros; apply touches_only_raise.
  - apply touches_only_bind; [|intros; apply touches_only_ret].
    apply touches_only_bind; [apply Hread, lrange_reads|].
    intros [members|]; [apply touches_only_ret | apply touches_only_raise].
Qed.

(** X3. Whatever method is called on a queue of either class, with whatever
    arguments and whether it returns or raises, the lists stored under every
    other key are left as they were: two queues on different keys never
    disturb each other. *)
Theorem other_keys_untouched self (m : method V) σ k' :
  key self ≠ k' →
  exec (invoke self m) σ !! k' = σ !! k'
  ∧ contents (exec (invoke self m) σ) k' = contents σ k'.
Proof.
  intros Hne. pose proof (invoke_touches_only self m σ k' Hne) as Hk.
  split; [done|]. unfold redis_conn.contents. by rewrite Hk.
Qed.

Lemma invoke_reads self (m : method V) σ :
  reads_only m = true → exec (invoke self m) σ = σ.
Proof.
  destruct m; try done; intros _; unfold exec; simpl; unfold bind.
  - rewrite contains_run. done.
  - unfold RedisQueue.__getitem__, bind.
    pose proof (lindex_reads (key self) i σ) as Hi.
    unfold exec in Hi. destruct (redis_conn.lindex (key self) i σ) as [[a|e] σ'].
    + simpl in Hi. by subst.
    + simpl in Hi. by subst.
  - rewrite iter_run. by destruct (σ !! key self).
Qed.

(** X4. The membership test, the length, the indexed read and the iteration
    never write: whatever they return or raise, the whole key space is
    afterwards exactly what it was, so any call made after a read behaves as
    if the read had not happened. *)
Theorem reads_never_write self (m m' : method V) σ :
  reads_only m = true →
  exec (invoke self m) σ = σ
  ∧ invoke self m' (exec (invoke self m) σ) = invoke self m' σ.
Proof. intros Hm. by rewrite (invoke_reads self m σ Hm). Qed.

End isolation.

(** * Further properties: the exclusivity invariant under every call *)

Section invariant.
Context {V : Type} `{EqDecision V} {srv : Server}.
Implicit Types (σ : gmap string (list V)) (k : string) (l : list V) (x : V).
Implicit Types (self : queue) (item value : pyval V).
Local Abbreviation contents := redis_conn.contents.
Local Abbreviation put := redis_conn.put.

Lemma pop_run self timeout σ :
  RedisQueue.pop self timeout σ =
    match last (contents σ (key self)) with
    | None => (Ok PyNone, σ)
    | Some x => (Ok (popped timeout (key self) x),
                 put (key self) (removelast (contents σ (key self))) σ)
    end.
Proof.
  unfold RedisQueue.pop, bind, redis_conn.brpop, redis_conn.rpop.
  by destruct timeout; destruct (last (contents σ (key self))).
Qed.

Lemma popleft_run self timeout σ :
  RedisQueue.popleft self timeout σ =
    match contents σ (key self) with
    | [] => (Ok PyNone, σ)
    | x :: rest => (Ok (popped timeout (key self) x), put (key self) rest σ)
    end.
Proof.
  unfold RedisQueue.popleft, bind, redis_conn.blpop, redis_conn.lpop.
  by destruct timeout; destruct (contents σ (key self)).
Qed.

Lemma pop_contents self timeout σ :
  contents (exec (RedisQueue.pop self timeout) σ) (key self)
  = removelast (contents σ (key self)).
Proof.
  unfold exec. rewrite pop_run.
  destruct (last (contents σ (key self))) eqn:Hlast; simpl.
  - by rewrite contents_put.
  - apply last_None in Hlast. by rewrite Hlast.
Qed.

Lemma popleft_contents self timeout σ :
  contents (exec (RedisQueue.popleft self timeout) σ) (key self)
  = tail (contents σ (key self)).
Proof.
  unfold exec. rewrite popleft_run.
  destruct (contents σ (key self)) eqn:Hl; simpl; [done|].
  by rewrite contents_put.
Qed.

Lemma pop_eval self timeout σ :
  eval (RedisQueue.pop self timeout) σ
  = Ok (from_option (popped timeout (key self)) PyNone
          (last (contents σ (key self)))).
Proof.
  unfold eval. rewrite pop_run. by destruct (last (contents σ (key self))).
Qed.

Lemma popleft_eval self timeout σ :
  eval (RedisQueue.popleft self timeout) σ
  = Ok (from_option (popped timeout (key self)) PyNone
          (head (contents σ (key self)))).
Proof.
  unfold eval. rewrite popleft_run. by destruct (contents σ (key self)).
Qed.

(** An exclusive pop is the plain pop followed by the swallowed remove. *)
Lemma exclusive_pop_split self timeout σ :
  ExclusiveQueue.pop self timeout σ =
    (eval (RedisQueue.pop self timeout) σ,
     match eval (RedisQueue.pop self timeout) σ with
     | Ok item =>
         exec (try_except (RedisQueue.remove self item) is_ValueError
                 (λ _, ret ()))
           (exec (RedisQueue.pop self timeout) σ)
     | Raise _ => exec (RedisQueue.pop self timeout) σ
     end).
Proof.
  unfold ExclusiveQueue.pop, bind, eval, exec.
  destruct (RedisQueue.pop self timeout σ) as [[item|e] σ1]; simpl; [|done].
  by rewrite remove_swallowed_run.
Qed.

Lemma exclusive_popleft_split self timeout σ :
  ExclusiveQueue.popleft self timeout σ =
    (eval (RedisQueue.popleft self timeout) σ,
     match eval (RedisQueue.popleft self timeout) σ with
     | Ok item =>
         exec (try_except (RedisQueue.remove self item) is_ValueError
                 (λ _, ret ()))
           (exec (RedisQueue.popleft self timeout) σ)
     | Raise _ => exec (RedisQueue.popleft self timeout) σ
     end).
Proof.
  unfold ExclusiveQueue.popleft, bind, eval, exec.
  destruct (RedisQueue.popleft self timeout σ) as [[item|e] σ1]; simpl; [|done].
  by rewrite remove_swallowed_run.
Qed.

Lemma NoDup_removelast l : NoDup l → NoDup (removelast l).
Proof.
  intros Hl. destruct (last l) as [x|] eqn:Hlast.
  - apply last_Some in Hlast as [l' ->]. rewrite removelast_last.
    by apply NoDup_app in Hl as [? _].
  - apply last_None in Hlast. by subst l.
Qed.

Lemma NoDup_tail l : NoDup l → NoDup (tail l).
Proof. destruct l; [done|]. simpl. by intros [_ ?]%NoDup_cons. Qed.

Lemma rotate_contents self σ :
  contents (exec (RedisQueue.rotate self) σ) (key self)
  = match last (contents σ (key self)) with
    | Some x => x :: removelast (contents σ (key self))
    | None => []
    end.
Proof.
  unfold exec, RedisQueue.rotate, bind. rewrite poppush_self_run.
  destruct (last (contents σ (key self))) eqn:Hlast; simpl.
  - by rewrite contents_put.
  - by apply last_None in Hlast.
Qed.

Lemma rotate_Permutation self σ :
  contents (exec (RedisQueue.rotate self) σ) (key self) ≡ₚ contents σ (key self).
Proof.
  rewrite rotate_contents.
  destruct (last (contents σ (key self))) as [x|] eqn:Hlast.
  - apply last_Some in Hlast as [l' Hl]. rewrite Hl, removelast_last.
    by rewrite Permutation_app_comm.
  - apply last_None in Hlast. by rewrite Hlast.
Qed.

Lemma clear_run self σ :
  exec (RedisQueue.clear self) σ !! key self = None
  ∧ contents (exec (RedisQueue.clear self) σ) (key self) = [].
Proof.
  unfold exec, RedisQueue.clear, redis_conn.delete, redis_conn.contents. simpl.
  by rewrite lookup_delete_eq.
Qed.

(** A loop keeps what each of its rounds keeps, also when a round raises and
    ends it. *)
Lemma for_each_keeps {A} (P : gmap string (list V) → Prop) (xs : list A)
    (body : A → M (gmap string (list V)) unit) σ :
  Forall (λ a, ∀ σ', P σ' → P (exec (body a) σ')) xs →
  P σ → P (exec (for_each xs body) σ).
Proof.
  intros Hbody. revert σ.
  induction Hbody as [|a xs Ha _ IH]; intros σ Hσ; [done|].
  specialize (Ha σ Hσ). unfold exec in *. simpl. unfold bind.
  destruct (body a σ) as [[[]|e] σ']; simpl in *; [by apply IH | done].
Qed.

Lemma invoke_keeps_NoDup self (m : method V) σ :
  cls self = ExclusiveQueue → is_setitem m = false →
  NoDup (contents σ (key self)) →
  NoDup (contents (exec (invoke self m) σ) (key self)).
Proof.
  intros Hcls Hm Hnd.
  assert (Hswallow : ∀ item σ', NoDup (contents σ' (key self)) →
            NoDup (contents
                     (exec (try_except (RedisQueue.remove self item)
                              is_ValueError (λ _, ret ())) σ') (key self))).
  { intros item σ' Hσ'. rewrite remove_swallowed_contents. by apply NoDup_filter. }
  destruct (reads_only m) eqn:Hr; [by rewrite invoke_reads|].
  destruct m; try done; simpl.
  - unfold append. rewrite Hcls.
    change (ExclusiveQueue.append self x) with (call self (Append x)).
    rewrite (proj2 (call_run self (Append x) σ)). by apply push_once_NoDup.
  - unfold appendleft. rewrite Hcls.
    change (ExclusiveQueue.appendleft self x) with (call self (AppendLeft x)).
    rewrite (proj2 (call_run self (AppendLeft x) σ)). by apply push_once_NoDup.
  - rewrite (proj2 (clear_run self σ)). apply NoDup_nil_2.
  - rewrite (proj1 (exclusive_extend_calls self iterable Hcls)).
    rewrite (proj2 (calls_run self _ σ)). by apply foldl_push_once_NoDup.
  - rewrite (proj2 (exclusive_extend_calls self iterable Hcls)).
    rewrite (proj2 (calls_run self _ σ)). by apply foldl_push_once_NoDup.
  - unfold pop. rewrite Hcls. unfold exec, bind.
    rewrite exclusive_pop_split, pop_eval. simpl.
    apply Hswallow. rewrite pop_contents. by apply NoDup_removelast.
  - unfold popleft. rewrite Hcls. unfold exec, bind.
    rewrite exclusive_popleft_split, popleft_eval. simpl.
    apply Hswallow. rewrite popleft_contents. by apply NoDup_tail.
  - unfold exec. rewrite remove_run.
    destruct (in_list value (contents σ (key self))); simpl; [|done].
    rewrite contents_put. by apply NoDup_filter.
  - by rewrite rotate_Permutation.
Qed.

(** X5. On an [ExclusiveQueue] whose sequence holds no value twice, every
    call other than an indexed write keeps it so: pushes, [extend] and
    [extendleft], pops from either end with or without a timeout, [remove],
    [rotate], [clear] and the reads.  The same holds after any run of such
    calls, also one that a raised exception cuts short. *)
Theorem exclusive_invariant_kept self (ms : list (method V)) σ :
  cls self = ExclusiveQueue →
  Forall (λ m, is_setitem m = false) ms →
  NoDup (contents σ (key self)) →
  NoDup (contents (exec (for_each ms (invoke self)) σ) (key self))
  ∧ ∀ m, m ∈ ms → ∀ σ', NoDup (contents σ' (key self)) →
           NoDup (contents (exec (invoke self m) σ') (key self)).
Proof.
  intros Hcls Hms Hnd. split.
  - apply (for_each_keeps (λ σ', NoDup (contents σ' (key self)))); [|done].
    eapply Forall_impl; [exact Hms|]. intros m Hm σ' Hσ'.
    by apply invoke_keeps_NoDup.
  - intros m Hin σ' Hσ'. apply invoke_keeps_NoDup; [done| |done].
    by apply (proj1 (Forall_forall _ _) Hms).
Qed.

(** X6. The indexed write is inherited by [ExclusiveQueue] as it is and
    makes no membership check: writing, at a position within bounds, a value
    that already sits at another position returns normally and leaves that
    value twice in the sequence. *)
Theorem setitem_can_duplicate self σ l (i j : nat) (v : V) :
  σ !! key self = Some l →
  l !! j = Some v →
  i ≠ j →
  (i < length l)%nat →
  eval (RedisQueue.__setitem__ self (Z.of_nat i) v) σ = Ok ()
  ∧ contents (exec (RedisQueue.__setitem__ self (Z.of_nat i) v) σ) (key self)
    = <[i := v]> l
  ∧ ¬ NoDup (contents (exec (RedisQueue.__setitem__ self (Z.of_nat i) v) σ)
               (key self)).
Proof.
  intros Hk Hj Hij Hi.
  assert (Hres : redis_conn.resolve_index (length l) (Z.of_nat i) = Some i).
  { unfold redis_conn.resolve_index.
    destruct (Z.leb_spec 0 (Z.of_nat i)); [|lia].
    destruct (Z.ltb_spec (Z.of_nat i) (Z.of_nat (length l))); [|lia].
    by rewrite Nat2Z.id. }
  assert (Hrun : RedisQueue.__setitem__ self (Z.of_nat i) v σ
                 = (Ok (), put (key self) (<[i := v]> l) σ)).
  { unfold RedisQueue.__setitem__, try_except, redis_conn.lset.
    by rewrite Hk, Hres. }
  unfold eval, exec. rewrite Hrun. simpl. rewrite contents_put.
  split; [done|]. split; [done|].
  intros Hnd. apply Hij.
  eapply (NoDup_lookup _ i j v Hnd).
  - by apply list_lookup_insert_eq.
  - by rewrite list_lookup_insert_ne.
Qed.

(** X7. On a sequence that holds no value twice, the pops of
    [ExclusiveQueue] are the pops of [RedisQueue]: with or without a timeout
    they return the same value and leave the same key space, the inner
    [remove] having nothing to remove. *)
Theorem exclusive_pop_is_plain_pop self timeout σ :
  NoDup (contents σ (key self)) →
  ExclusiveQueue.pop self timeout σ = RedisQueue.pop self timeout σ
  ∧ ExclusiveQueue.popleft self timeout σ = RedisQueue.popleft self timeout σ.
Proof.
  intros Hnd.
  split.
  - rewrite exclusive_pop_split, pop_eval.
    rewrite (surjective_pairing (RedisQueue.pop self timeout σ)).
    fold (eval (RedisQueue.pop self timeout) σ).
    fold (exec (RedisQueue.pop self timeout) σ).
    rewrite pop_eval. f_equal.
    unfold exec at 1. rewrite remove_swallowed_run, pop_contents. simpl.
    destruct (last (contents σ (key self))) as [x|] eqn:Hlast; simpl.
    + apply last_Some in Hlast as [l' Hl]. rewrite Hl, removelast_last.
      destruct timeout; simpl; [done|].
      rewrite Hl in Hnd. apply NoDup_app in Hnd as (_ & Hx & _).
      rewrite bool_decide_eq_false_2; [done|].
      intros Hin. apply (Hx x Hin). apply list_elem_of_here.
    + done.
  - rewrite exclusive_popleft_split, popleft_eval.
    rewrite (surjective_pairing (RedisQueue.popleft self timeout σ)).
    fold (eval (RedisQueue.popleft self timeout) σ).
    fold (exec (RedisQueue.popleft self timeout) σ).
    rewrite popleft_eval. f_equal.
    unfold exec at 1. rewrite remove_swallowed_run, popleft_contents. simpl.
    destruct (contents σ (key self)) as [|x l'] eqn:Hl; simpl; [done|].
    destruct timeout; simpl; [done|].
    apply NoDup_cons in Hnd as [Hx _]. by rewrite bool_decide_eq_false_2.
Qed.

End invariant.

(** * Further properties: how the calls compose *)

Section composition.
Context {V : Type} `{EqDecision V} {srv : Server}.
Implicit Types (σ : gmap string (list V)) (k : string) (l : list V) (x : V).
Implicit Types (self : queue) (item value : pyval V).
Local Abbreviation contents := redis_conn.contents.
Local Abbreviation put := redis_conn.put.

Lemma remove_contents self value σ :
  contents (exec (RedisQueue.remove self value) σ) (key self)
  = filter (λ e, PyItem e ≠ value) (contents σ (key self)).
Proof.
  unfold exec. rewrite remove_run.
  destruct (in_list value (contents σ (key self))) eqn:Hin; simpl.
  - by rewrite contents_put.
  - symmetry. by apply kept_all.
Qed.

(** X8. After [remove(value)], whether it found something or raised, the
    value is gone: the membership test answers false, and a second
    [remove(value)] always raises [ValueError] and changes nothing. *)
Theorem remove_twice_raises self value σ :
  let σ' := exec (RedisQueue.remove self value) σ in
  eval (contains_op self value) σ' = Ok false
  ∧ RedisQueue.remove self value σ' = (Raise ValueError, σ').
Proof.
  intros σ'.
  assert (Hgone : in_list value (contents σ' (key self)) = false).
  { subst σ'. rewrite remove_contents. apply in_list_kept. }
  unfold eval. by rewrite contains_op_run, remove_run, Hgone.
Qed.

(** X9. A push on an [ExclusiveQueue] changes nothing, key space included,
    when the value is already in the sequence, and is the push of
    [RedisQueue] when it is not.  So pushing the same value again, at either
    end, right after a push of it is a no-op. *)
Theorem exclusive_push_idempotent self x σ :
  ExclusiveQueue.append self x σ
    = (if bool_decide (x ∈ contents σ (key self)) then (Ok (), σ)
       else RedisQueue.append self x σ)
  ∧ ExclusiveQueue.appendleft self x σ
    = (if bool_decide (x ∈ contents σ (key self)) then (Ok (), σ)
       else RedisQueue.appendleft self x σ)
  ∧ (∀ σ', σ' = exec (ExclusiveQueue.append self x) σ
           ∨ σ' = exec (ExclusiveQueue.appendleft self x) σ →
       ExclusiveQueue.append self x σ' = (Ok (), σ')
       ∧ ExclusiveQueue.appendleft self x σ' = (Ok (), σ')).
Proof.
  assert (Happ : ExclusiveQueue.append self x σ
                 = (if bool_decide (x ∈ contents σ (key self)) then (Ok (), σ)
                    else RedisQueue.append self x σ)).
  { rewrite exclusive_append_run. by case_bool_decide. }
  assert (Hleft : ExclusiveQueue.appendleft self x σ
                  = (if bool_decide (x ∈ contents σ (key self)) then (Ok (), σ)
                     else RedisQueue.appendleft self x σ)).
  { rewrite exclusive_appendleft_run. by case_bool_decide. }
  split; [done|]. split; [done|].
  intros σ' Hσ'.
  assert (Hin : x ∈ contents σ' (key self)).
  { destruct Hσ' as [-> | ->]; unfold exec.
    - rewrite exclusive_append_run. simpl. case_bool_decide; [done|].
      rewrite contents_put. apply elem_of_app. right. apply list_elem_of_here.
    - rewrite exclusive_appendleft_run. simpl. case_bool_decide; [done|].
      rewrite contents_put. apply list_elem_of_here. }
  rewrite exclusive_append_run, exclusive_appendleft_run.
  by rewrite bool_decide_eq_true_2.
Qed.

Lemma rotate_ok self σ : eval (RedisQueue.rotate self) σ = Ok ().
Proof.
  unfold eval, RedisQueue.rotate, bind. rewrite poppush_self_run.
  by destruct (last (contents σ (key self))).
Qed.

Lemma rotations_S self n σ :
  exec (rotations self (S n)) σ = exec (rotations self n) (exec (RedisQueue.rotate self) σ).
Proof.
  unfold rotations. change (replicate (S n) ()) with (() :: replicate n ()).
  rewrite exec_for_each_cons; [done | apply rotate_ok].
Qed.

Lemma rotations_run self b : ∀ a σ,
  contents σ (key self) = a ++ b →
  contents (exec (rotations self (length b)) σ) (key self) = b ++ a.
Proof.
  induction b as [|x b IH] using rev_ind; intros a σ Hl.
  - by rewrite app_nil_r in Hl.
  - rewrite length_app, Nat.add_1_r, rotations_S.
    rewrite (IH (x :: a)); [by rewrite <- app_assoc|].
    rewrite rotate_contents, Hl, app_assoc, last_snoc, removelast_last. done.
Qed.

(** X10. Calling [rotate] once for each of the last [n] elements brings
    those [n] elements to the front in their order; calling it once for each
    element of the sequence gives the sequence back.  However often it is
    called, [rotate] returns and only reorders: no element is lost or
    added. *)
Theorem rotations_cycle self σ a b :
  contents σ (key self) = a ++ b →
  contents (exec (rotations self (length b)) σ) (key self) = b ++ a
  ∧ contents (exec (rotations self (length (a ++ b))) σ) (key self) = a ++ b
  ∧ ∀ n, eval (rotations self n) σ = Ok ()
         ∧ contents (exec (rotations self n) σ) (key self) ≡ₚ a ++ b.
Proof.
  intros Hl. split; [by apply rotations_run|].
  split; [rewrite (rotations_run self (a ++ b) [] σ); by rewrite ?app_nil_r|].
  intros n. split; [apply for_each_ok; intros; apply rotate_ok|].
  rewrite <- Hl. clear Hl. revert σ. induction n as [|n IH]; intros σ; [done|].
  by rewrite rotations_S, IH, rotate_Permutation.
Qed.

Lemma getitem_run self i σ :
  RedisQueue.__getitem__ self i σ =
    (Ok (from_option PyItem PyNone
           (redis_conn.resolve_index (length (contents σ (key self))) i
              ≫= λ j, contents σ (key self) !! j)), σ).
Proof.
  unfold RedisQueue.__getitem__, bind, redis_conn.lindex.
  destruct (redis_conn.resolve_index _ i) as [j|]; simpl; [|done].
  by destruct (contents σ (key self) !! j).
Qed.

Lemma resolve_index_head n (j : nat) :
  redis_conn.resolve_index n (Z.of_nat j) = if decide (j < n)%nat then Some j else None.
Proof.
  unfold redis_conn.resolve_index.
  destruct (Z.leb_spec 0 (Z.of_nat j)); [|lia].
  destruct (Z.ltb_spec (Z.of_nat j) (Z.of_nat n)); case_decide; try lia; [|done].
  by rewrite Nat2Z.id.
Qed.

Lemma resolve_index_tail n (j : nat) :
  redis_conn.resolve_index n (- Z.of_nat (S j))
  = if decide (j < n)%nat then Some (n - S j)%nat else None.
Proof.
  unfold redis_conn.resolve_index.
  destruct (Z.leb_spec 0 (- Z.of_nat (S j))); [lia|].
  destruct (Z.leb_spec (- Z.of_nat n) (- Z.of_nat (S j))); case_decide; try lia;
    [|done].
  f_equal. lia.
Qed.

(** X11. Indexed reads count from the head for an index [j >= 0] and from
    the tail for [-1 - j]: [self[j]] is the [j]-th element of the sequence
    and [self[-1 - j]] the [j]-th of the reversed sequence, and the answer is
    [None], not an error, beyond either end.  In particular [self[-1]] is
    what [pop()] would return and [self[0]] what [popleft()] would. *)
Theorem getitem_positions self σ (j : nat) :
  let l := contents σ (key self) in
  eval (RedisQueue.__getitem__ self (Z.of_nat j)) σ
    = Ok (from_option PyItem PyNone (l !! j))
  ∧ eval (RedisQueue.__getitem__ self (- Z.of_nat (S j))) σ
    = Ok (from_option PyItem PyNone (reverse l !! j))
  ∧ eval (RedisQueue.__getitem__ self (-1)) σ = eval (RedisQueue.pop self None) σ
  ∧ eval (RedisQueue.__getitem__ self 0) σ = eval (RedisQueue.popleft self None) σ.
Proof.
  intros l.
  assert (Htail : ∀ j', eval (RedisQueue.__getitem__ self (- Z.of_nat (S j'))) σ
                        = Ok (from_option PyItem PyNone (reverse l !! j'))).
  { intros j'. unfold eval. rewrite getitem_run, resolve_index_tail. fold l.
    case_decide as Hj; simpl.
    - by rewrite reverse_lookup.
    - rewrite (lookup_ge_None_2 (reverse l)); [done|]. rewrite length_reverse. lia. }
  assert (Hhead : ∀ j', eval (RedisQueue.__getitem__ self (Z.of_nat j')) σ
                        = Ok (from_option PyItem PyNone (l !! j'))).
  { intros j'. unfold eval. rewrite getitem_run, resolve_index_head. fold l.
    case_decide as Hj; simpl; [done|].
    rewrite (lookup_ge_None_2 l); [done|lia]. }
  split; [apply Hhead|]. split; [apply Htail|]. split.
  - specialize (Htail 0%nat). change (- Z.of_nat 1) with (-1) in Htail.
    rewrite Htail, pop_eval, <- head_lookup, head_reverse. fold l.
    by destruct (last l).
  - specialize (Hhead 0%nat). change (Z.of_nat 0) with 0 in Hhead.
    rewrite Hhead, popleft_eval, <- head_lookup. fold l.
    by destruct (head l).
Qed.

Lemma length_removelast l : length (removelast l) = pred (length l).
Proof.
  destruct (last l) as [x|] eqn:Hlast.
  - apply last_Some in Hlast as [l' ->].
    rewrite removelast_last, length_app. simpl. lia.
  - apply last_None in Hlast. by subst l.
Qed.

(** X12. The length follows the calls: one more after a push at either
    end, one less (and never below zero) after a pop at either end with or
    without a timeout, unchanged by [rotate], zero after [clear].  It is the
    number of elements an iteration yields, and it is zero exactly when
    [pop()] answers [None]. *)
Theorem len_counts self σ x timeout :
  let n := length (contents σ (key self)) in
  eval (RedisQueue.__len__ self) (exec (RedisQueue.append self x) σ) = Ok (S n)
  ∧ eval (RedisQueue.__len__ self) (exec (RedisQueue.appendleft self x) σ) = Ok (S n)
  ∧ eval (RedisQueue.__len__ self) (exec (RedisQueue.pop self timeout) σ) = Ok (pred n)
  ∧ eval (RedisQueue.__len__ self) (exec (RedisQueue.popleft self timeout) σ)
    = Ok (pred n)
  ∧ eval (RedisQueue.__len__ self) (exec (RedisQueue.rotate self) σ) = Ok n
  ∧ eval (RedisQueue.__len__ self) (exec (RedisQueue.clear self) σ) = Ok 0%nat
  ∧ match eval (RedisQueue.__iter__ self) σ with
    | Ok members => length members = n
    | Raise _ => n = 0%nat
    end
  ∧ (eval (RedisQueue.__len__ self) σ = Ok 0%nat
     ↔ eval (RedisQueue.pop self None) σ = Ok PyNone).
Proof.
  intros n. unfold eval at 1 2 3 4 5 6, RedisQueue.__len__, redis_conn.llen. simpl.
  repeat split.
  - unfold exec, RedisQueue.append, redis_conn.rpush. simpl.
    rewrite contents_put, length_app. simpl. f_equal. lia.
  - unfold exec, RedisQueue.appendleft, redis_conn.lpush. simpl.
    by rewrite contents_put.
  - by rewrite pop_contents, length_removelast.
  - rewrite popleft_contents. by destruct (contents σ (key self)).
  - by rewrite rotate_Permutation.
  - by rewrite (proj2 (clear_run self σ)).
  - unfold eval. rewrite iter_run. subst n. unfold redis_conn.contents.
    by destruct (σ !! key self).
  - rewrite pop_eval. unfold eval, RedisQueue.__len__, redis_conn.llen. simpl.
    intros [= Hn]. apply length_zero_iff_nil in Hn. by rewrite Hn.
  - rewrite pop_eval. unfold eval, RedisQueue.__len__, redis_conn.llen. simpl.
    destruct (last (contents σ (key self))) eqn:Hlast; [done|].
    apply last_None in Hlast. by rewrite Hlast.
Qed.

(** X13. [clear] deletes the key: afterwards the length is zero, pops at
    either end answer [None] and change nothing, the membership method
    answers [None], an iteration raises [TypeError], every indexed write
    raises [IndexError], and a push starts a new one-element sequence.
    Clearing again changes nothing. *)
Theorem clear_forgets self σ :
  let σ' := exec (RedisQueue.clear self) σ in
  eval (RedisQueue.clear self) σ = Ok ()
  ∧ σ' !! key self = None
  ∧ eval (RedisQueue.__len__ self) σ' = Ok 0%nat
  ∧ (∀ timeout, RedisQueue.pop self timeout σ' = (Ok PyNone, σ'))
  ∧ (∀ timeout, RedisQueue.popleft self timeout σ' = (Ok PyNone, σ'))
  ∧ (∀ item, eval (RedisQueue.__contains__ self item) σ' = Ok None)
  ∧ eval (RedisQueue.__iter__ self) σ' = Raise TypeError
  ∧ (∀ i (v : V), RedisQueue.__setitem__ self i v σ'
                  = (Raise (IndexError (ResponseError NoSuchKey)), σ'))
  ∧ (∀ x, contents (exec (RedisQueue.append self x) σ') (key self) = [x])
  ∧ exec (RedisQueue.clear self) σ' = σ'.
Proof.
  intros σ'. destruct (clear_run self σ) as [Hk Hc]. fold σ' in Hk, Hc.
  split; [done|]. split; [done|].
  split; [by unfold eval, RedisQueue.__len__, redis_conn.llen; simpl; rewrite Hc|].
  split; [by intros t; rewrite pop_run, Hc|].
  split; [by intros t; rewrite popleft_run, Hc|].
  split; [by intros item; unfold eval; rewrite contains_run, Hk|].
  split; [by unfold eval; rewrite iter_run, Hk|].
  split.
  { intros i v. unfold RedisQueue.__setitem__, try_except, redis_conn.lset.
    by rewrite Hk. }
  split.
  { intros x. unfold exec at 1, RedisQueue.append, redis_conn.rpush. simpl.
    by rewrite contents_put, Hc. }
  unfold exec at 1, RedisQueue.clear, redis_conn.delete. simpl.
  by apply delete_id.
Qed.

Lemma collect_S {A} (m : M (gmap string (list V)) A) n σ a :
  eval m σ = Ok a →
  eval (collect (S n) m) σ
    = match eval (collect n m) (exec m σ) with
      | Ok rest => Ok (a :: rest)
      | Raise e => Raise e
      end
  ∧ exec (collect (S n) m) σ = exec (collect n m) (exec m σ).
Proof.
  unfold eval, exec. simpl. unfold bind.
  destruct (m σ) as [[a'|e] σ1]; simpl; intros [= ->].
  by destruct (collect n m σ1) as [[rest|e] σ2].
Qed.

Lemma drain_left self : ∀ l σ,
  contents σ (key self) = l →
  eval (collect (length l) (RedisQueue.popleft self None)) σ = Ok (PyItem <$> l)
  ∧ contents (exec (collect (length l) (RedisQueue.popleft self None)) σ) (key self)
    = [].
Proof.
  induction l as [|x l IH]; intros σ Hl; [done|].
  assert (Hx : eval (RedisQueue.popleft self None) σ = Ok (PyItem x)).
  { by rewrite popleft_eval, Hl. }
  cbn [length].
  destruct (collect_S (RedisQueue.popleft self None) (length l) σ _ Hx) as [-> ->].
  destruct (IH (exec (RedisQueue.popleft self None) σ)) as [-> ->]; [|done].
  by rewrite popleft_contents, Hl.
Qed.

Lemma drain_right self : ∀ l σ,
  contents σ (key self) = l →
  eval (collect (length l) (RedisQueue.pop self None)) σ = Ok (PyItem <$> reverse l)
  ∧ contents (exec (collect (length l) (RedisQueue.pop self None)) σ) (key self)
    = [].
Proof.
  induction l as [|x l IH] using rev_ind; intros σ Hl; [done|].
  rewrite length_app, Nat.add_1_r, reverse_snoc.
  assert (Hx : eval (RedisQueue.pop self None) σ = Ok (PyItem x)).
  { by rewrite pop_eval, Hl, last_snoc. }
  destruct (collect_S (RedisQueue.pop self None) (length l) σ _ Hx) as [-> ->].
  destruct (IH (exec (RedisQueue.pop self None) σ)) as [-> ->]; [|done].
  by rewrite pop_contents, Hl, removelast_last.
Qed.

(** X14. Popping as many times as the sequence has elements empties it and
    hands the elements back in order: from the head with [popleft()], in
    reverse from the tail with [pop()].  So what [append] put in comes out
    of [popleft] first in, first out, after whatever was there before. *)
Theorem drain_order self (xs : list V) σ :
  let l := contents σ (key self) in
  let σ1 := exec (for_each xs (RedisQueue.append self)) σ in
  eval (collect (length l) (RedisQueue.popleft self None)) σ = Ok (PyItem <$> l)
  ∧ contents (exec (collect (length l) (RedisQueue.popleft self None)) σ) (key self)
    = []
  ∧ eval (collect (length l) (RedisQueue.pop self None)) σ
    = Ok (PyItem <$> reverse l)
  ∧ contents (exec (collect (length l) (RedisQueue.pop self None)) σ) (key self)
    = []
  ∧ eval (collect (length l + length xs) (RedisQueue.popleft self None)) σ1
    = Ok (PyItem <$> (l ++ xs))
  ∧ eval (collect (length l + length xs) (RedisQueue.pop self None)) σ1
    = Ok (PyItem <$> (reverse xs ++ reverse l)).
Proof.
  intros l σ1.
  destruct (drain_left self l σ eq_refl) as [Hl1 Hl2].
  destruct (drain_right self l σ eq_refl) as [Hr1 Hr2].
  assert (Hc : contents σ1 (key self) = l ++ xs).
  { apply (appends_run self xs σ). }
  destruct (drain_left self (l ++ xs) σ1 Hc) as [Hl3 _].
  destruct (drain_right self (l ++ xs) σ1 Hc) as [Hr3 _].
  rewrite length_app in Hl3, Hr3. rewrite reverse_app in Hr3.
  done.
Qed.

(** X15. A push followed by a pop at the same end hands the pushed value
    back (as the pair of the key and the value when the pop has a timeout)
    and leaves the sequence as it was before the push; a push followed by a
    pop at the other end of a sequence that was not empty hands back the old
    element of that end instead. *)
Theorem push_pop_round_trip self x timeout σ :
  let l := contents σ (key self) in
  eval (RedisQueue.pop self timeout) (exec (RedisQueue.append self x) σ)
    = Ok (popped timeout (key self) x)
  ∧ contents (exec (RedisQueue.pop self timeout) (exec (RedisQueue.append self x) σ))
      (key self) = l
  ∧ eval (RedisQueue.popleft self timeout) (exec (RedisQueue.appendleft self x) σ)
    = Ok (popped timeout (key self) x)
  ∧ contents (exec (RedisQueue.popleft self timeout)
                (exec (RedisQueue.appendleft self x) σ)) (key self) = l
  ∧ eval (RedisQueue.popleft self timeout) (exec (RedisQueue.append self x) σ)
    = Ok (popped timeout (key self) (default x (head l)))
  ∧ eval (RedisQueue.pop self timeout) (exec (RedisQueue.appendleft self x) σ)
    = Ok (popped timeout (key self) (default x (last l))).
Proof.
  intros l.
  assert (Ha : contents (exec (RedisQueue.append self x) σ) (key self) = l ++ [x]).
  { unfold exec, RedisQueue.append, redis_conn.rpush. simpl. by rewrite contents_put. }
  assert (Hb : contents (exec (RedisQueue.appendleft self x) σ) (key self) = x :: l).
  { unfold exec, RedisQueue.appendleft, redis_conn.lpush. simpl.
    by rewrite contents_put. }
  rewrite !pop_eval, !popleft_eval, !pop_contents, !popleft_contents, Ha, Hb.
  rewrite last_snoc, removelast_last. simpl.
  repeat split.
  - by destruct l.
  - rewrite last_cons. by destruct (last l).
Qed.

Lemma foldl_push_tail_once xs : ∀ l,
  (∀ x, x ∈ foldl push_tail_once l xs ↔ x ∈ l ∨ x ∈ xs)
  ∧ l `prefix_of` foldl push_tail_once l xs
  ∧ (length (foldl push_tail_once l xs) ≤ length l + length xs)%nat.
Proof.
  induction xs as [|y xs IH]; intros l; simpl.
  - split; [|split; [done|lia]]. intros x. rewrite elem_of_nil. tauto.
  - destruct (IH (push_tail_once l y)) as (Hin & Hpre & Hlen).
    unfold push_tail_once in *. case_bool_decide as Hy.
    + split; [|split; [done|lia]].
      intros x. rewrite Hin, elem_of_cons. split; [tauto|].
      intros [?|[->|?]]; tauto.
    + split; [|split].
      * intros x. rewrite Hin, elem_of_app, !elem_of_cons, elem_of_nil.
        tauto.
      * etrans; [|exact Hpre]. by apply prefix_app_r.
      * rewrite length_app in Hlen. simpl in Hlen. lia.
Qed.

Lemma foldl_push_head_once xs : ∀ l,
  (∀ x, x ∈ foldl push_head_once l xs ↔ x ∈ l ∨ x ∈ xs)
  ∧ l `suffix_of` foldl push_head_once l xs
  ∧ (length (foldl push_head_once l xs) ≤ length l + length xs)%nat.
Proof.
  induction xs as [|y xs IH]; intros l; simpl.
  - split; [|split; [done|lia]]. intros x. rewrite elem_of_nil. tauto.
  - destruct (IH (push_head_once l y)) as (Hin & Hsuf & Hlen).
    unfold push_head_once in *. case_bool_decide as Hy.
    + split; [|split; [done|lia]].
      intros x. rewrite Hin, elem_of_cons. split; [tauto|].
      intros [?|[->|?]]; tauto.
    + split; [|split].
      * intros x. rewrite Hin, !elem_of_cons. tauto.
      * etrans; [|exact Hsuf]. by apply suffix_cons_r.
      * simpl in Hlen. lia.
Qed.

(** X16. After [extend] or [extendleft] on an [ExclusiveQueue], a value is
    in the sequence exactly if it was there before or is among the arguments.
    What was there before keeps its place, as the head part after [extend]
    and as the tail part after [extendleft], and the sequence grows by at
    most the number of arguments. *)
Theorem exclusive_extend_members self xs σ :
  cls self = ExclusiveQueue →
  let l := contents σ (key self) in
  let after := contents (exec (extend self xs) σ) (key self) in
  let afterleft := contents (exec (extendleft self xs) σ) (key self) in
  (∀ x, x ∈ after ↔ x ∈ l ∨ x ∈ xs)
  ∧ l `prefix_of` after
  ∧ (length after ≤ length l + length xs)%nat
  ∧ (∀ x, x ∈ afterleft ↔ x ∈ l ∨ x ∈ xs)
  ∧ l `suffix_of` afterleft
  ∧ (length afterleft ≤ length l + length xs)%nat.
Proof.
  intros Hcls l after afterleft. subst after afterleft.
  destruct (exclusive_extend_calls self xs Hcls) as [-> ->].
  rewrite !(proj2 (calls_run self _ σ)), !foldl_fmap. simpl. fold l.
  destruct (foldl_push_tail_once xs l) as (? & ? & ?).
  destruct (foldl_push_head_once xs l) as (? & ? & ?).
  done.
Qed.

(** X17. An indexed write that raises leaves the key space exactly as it
    was.  One that returns changes the one position the index stands for:
    the length is the same, and an indexed read at any index that stands for
    another position, or for none, returns what it returned before. *)
Theorem setitem_one_position self i (v : V) σ :
  let n := length (contents σ (key self)) in
  let σ' := exec (RedisQueue.__setitem__ self i v) σ in
  match eval (RedisQueue.__setitem__ self i v) σ with
  | Ok _ =>
      eval (RedisQueue.__len__ self) σ' = Ok n
      ∧ ∀ j, redis_conn.resolve_index n j ≠ redis_conn.resolve_index n i →
             eval (RedisQueue.__getitem__ self j) σ'
             = eval (RedisQueue.__getitem__ self j) σ
  | Raise _ => σ' = σ
  end.
Proof.
  intros n σ'. subst n σ'.
  unfold eval at 1, exec, RedisQueue.__setitem__, try_except, redis_conn.lset.
  destruct (σ !! key self) as [l|] eqn:Hk; [|done].
  rewrite (contents_lookup _ _ _ Hk).
  destruct (redis_conn.resolve_index (length l) i) as [p|] eqn:Hi; [|done].
  simpl. split.
  - unfold eval, RedisQueue.__len__, redis_conn.llen. simpl.
    by rewrite contents_put, length_insert.
  - intros j Hj. unfold eval. rewrite !getitem_run. simpl.
    rewrite contents_put, length_insert, (contents_lookup _ _ _ Hk).
    destruct (redis_conn.resolve_index (length l) j) as [p'|]; [|done]. simpl.
    rewrite list_lookup_insert_ne; [done|]. congruence.
Qed.

End composition.

(** * The further properties at concrete queues *)

Lemma other_keys_untouched_witness :
  exec (invoke (srv:=drops_them) exclusive_q (m_pop None)) two_queues !! "other"
  = Some ["z"].
Proof.
  destruct (other_keys_untouched (srv:=drops_them) exclusive_q (m_pop None)
              two_queues "other") as [Hk _]; [discriminate|].
  rewrite Hk. reflexivity.
Defined.

Lemma reads_never_write_witness :
  invoke (srv:=keeps_empty_lists) exclusive_q (m_pop None)
    (exec (invoke (srv:=keeps_empty_lists) exclusive_q (m_contains (PyItem "a"))) abc)
  = invoke (srv:=keeps_empty_lists) exclusive_q (m_pop None) abc.
Proof.
  destruct (reads_never_write (srv:=keeps_empty_lists) exclusive_q
              (m_contains (PyItem "a")) (m_pop None) abc) as [_ Hsame];
    [reflexivity|].
  exact Hsame.
Defined.

Lemma exclusive_invariant_kept_witness :
  NoDup (redis_conn.contents
           (exec (for_each [m_append "a"; m_appendleft "d"; m_pop (Some 1%nat);
                            m_rotate; m_remove (PyItem "zz"); m_clear]
                    (invoke (srv:=drops_them) exclusive_q)) abc) "q").
Proof.
  destruct (exclusive_invariant_kept (srv:=drops_them) exclusive_q
              [m_append "a"; m_appendleft "d"; m_pop (Some 1%nat);
               m_rotate; m_remove (PyItem "zz"); m_clear] abc) as [Hnd _].
  - reflexivity.
  - repeat constructor.
  - change (NoDup ["a"; "b"; "c"]). by apply (bool_decide_unpack _).
  - exact Hnd.
Defined.

Lemma setitem_can_duplicate_witness :
  redis_conn.contents
    (exec (RedisQueue.__setitem__ (srv:=keeps_empty_lists) exclusive_q 0 "c") abc) "q"
  = ["c"; "b"; "c"].
Proof.
  destruct (setitem_can_duplicate (srv:=keeps_empty_lists) exclusive_q abc
              ["a"; "b"; "c"] 0 2 "c") as (_ & Hc & _).
  - reflexivity.
  - reflexivity.
  - discriminate.
  - simpl. lia.
  - exact Hc.
Defined.

Lemma exclusive_pop_is_plain_pop_witness :
  ExclusiveQueue.pop (srv:=keeps_empty_lists) exclusive_q None abc
  = RedisQueue.pop (srv:=keeps_empty_lists) exclusive_q None abc.
Proof.
  destruct (exclusive_pop_is_plain_pop (srv:=keeps_empty_lists) exclusive_q None abc)
    as [Hpop _].
  - change (NoDup ["a"; "b"; "c"]). by apply (bool_decide_unpack _).
  - exact Hpop.
Defined.

Lemma rotations_cycle_witness :
  redis_conn.contents (exec (rotations (srv:=keeps_empty_lists) plain_q 2) abc) "q"
  = ["b"; "c"; "a"].
Proof.
  destruct (rotations_cycle (srv:=keeps_empty_lists) plain_q abc ["a"] ["b"; "c"])
    as (Hc & _); [reflexivity|].
  exact Hc.
Defined.

Lemma exclusive_extend_members_witness :
  redis_conn.contents abc "q"
    `prefix_of` redis_conn.contents
                  (exec (extend (srv:=keeps_empty_lists) exclusive_q ["b"; "d"]) abc) "q".
Proof.
  destruct (exclusive_extend_members (srv:=keeps_empty_lists) exclusive_q
              ["b"; "d"] abc) as (_ & Hpre & _); [reflexivity|].
  exact Hpre.
Defined.
